(** * godoctor: the Fix Imports transformation and the file system abstraction

    A shallow embedding of [doctor/fiximports.go] and [doctor/filesystem.go].

    Go strings are byte strings and are modelled by [string]; Go maps
    [map[string]T] are modelled by [gmap string T]; a Go [int] offset is a [Z].
    Code that mutates state (the log, the edit set, the file systems) is
    written in state-passing style; code that can panic or return an [error]
    returns an [Outcome]. *)

From Stdlib Require Import ZArith Ascii.
From stdpp Require Import gmap strings list fin_maps sorting.

Set Warnings "-register-all".

Local Open Scope Z_scope.

(** ** Outcomes of Go calls *)

(** A Go [error] value, identified with the text of its [Error()] method. *)
Definition error := string.

(** What a call ends with: a normal return carrying a value, a non-nil
    [error], or a run-time panic. *)
Inductive Outcome (A : Type) : Type :=
| Ok (a : A)
| Err (e : error)
| Panic (msg : string).
Arguments Ok {A} a.
Arguments Err {A} e.
Arguments Panic {A} msg.

Definition failed {A} (o : Outcome A) : bool :=
  match o with Ok _ => false | _ => true end.

(** ** The parts of the Go standard library the code calls *)

Module strings.

(** [strings.HasPrefix(s, prefix)]. *)
Fixpoint HasPrefix (s prefix : string) : bool :=
  match prefix, s with
  | EmptyString, _ => true
  | String _ _, EmptyString => false
  | String p prefix', String c s' =>
      if Ascii.eqb c p then HasPrefix s' prefix' else false
  end.

(** [strings.Split(s, sep)] for a one-byte separator: the pieces of [s]
    between the occurrences of [sep]; never an empty slice. *)
Fixpoint Split (s : string) (sep : ascii) : list string :=
  match s with
  | EmptyString => [EmptyString]
  | String c s' =>
      if Ascii.eqb c sep then EmptyString :: Split s' sep
      else match Split s' sep with
           | piece :: pieces => String c piece :: pieces
           | [] => [String c EmptyString]
           end
  end.

End strings.

Module path.

(** [path.Split(p)]: splits immediately after the final slash; the first
    component is empty when [p] has no slash. *)
Fixpoint Split (p : string) : string * string :=
  match p with
  | EmptyString => (EmptyString, EmptyString)
  | String c p' =>
      let '(dir, file) := Split p' in
      if Ascii.eqb c "/"%char then (String c dir, file)
      else match dir with
           | EmptyString => (EmptyString, String c file)
           | _ => (String c dir, file)
           end
  end.

End path.

Module sort.

(** [sort.Strings]: the slice in increasing byte-wise lexicographic order. *)
Definition Strings (a : list string) : list string :=
  merge_sort String.le a.

End sort.

(** [path.Dir] and [path.Join], which [LocalFileSystem.Rename] uses to
    build the new path; only their types matter here. *)
Class PathLib := {
  path_Dir : string → string;
  path_Join : string → string → string
}.

(** ** The syntax trees of [go/ast] that the transformation walks *)

Module ast.

(** [token.Pos]; zero is [token.NoPos]. *)
Definition Pos := Z.

Inductive Token := IMPORT | CONST | TYPE | VAR.

Record Ident := { NamePos : Pos; Name : string }.

(** A literal as written in the source: for a string literal [Value]
    includes the quotes. *)
Record BasicLit := { ValuePos : Pos; Value : string }.

Inductive Expr :=
| IdentExpr (id : Ident)
| BasicLitExpr (lit : BasicLit)
| ParenExpr (X : Expr)
| SelectorExpr (X : Expr) (Sel : Ident)
| IndexExpr (X : Expr) (Index : Expr)
| CallExpr (Fun : Expr) (Args : list Expr)
| StarExpr (X : Expr)
| UnaryExpr (X : Expr)
| BinaryExpr (X : Expr) (Y : Expr).

Inductive Stmt :=
| ExprStmt (X : Expr)
| AssignStmt (Lhs : list Expr) (Rhs : list Expr)
| ReturnStmt (Results : list Expr)
| BlockStmt (List : list Stmt).

Record ImportSpec := { ImportName : option Ident; Path : BasicLit }.

Inductive Spec :=
| ImportSpecNode (s : ImportSpec)
| ValueSpec (Names : list Ident) (Values : list Expr)
| TypeSpec (TypeName : Ident) (Type_ : Expr).

(** A declaration, with the positions its [Pos()] and [End()] report. *)
Inductive Decl :=
| GenDecl (pos : Pos) (Tok : Token) (Specs : list Spec) (end_ : Pos)
| FuncDecl (pos : Pos) (FuncName : Ident) (Body : list Stmt) (end_ : Pos).

Definition DeclPos (d : Decl) : Pos :=
  match d with GenDecl p _ _ _ => p | FuncDecl p _ _ _ => p end.

Definition DeclEnd (d : Decl) : Pos :=
  match d with GenDecl _ _ _ e => e | FuncDecl _ _ _ e => e end.

Record File := {
  PackageName : Ident;
  Decls : list Decl;
  Imports : list ImportSpec;
  Unresolved : list Ident
}.

(** [ast.Node]: what a visitor is handed; [NilNode] is the [nil] with
    which [Walk] ends the visit of a node's children. *)
Inductive Node :=
| FileNode (f : File)
| DeclNode (d : Decl)
| SpecNode (s : Spec)
| StmtNode (s : Stmt)
| ExprNode (e : Expr)
| NilNode.

Section Inspect.
(** The callback of [ast.Inspect] is a closure over local variables;
    [S] is the type of what it captures. It returns the new captured
    state and whether to descend. *)
Context {S : Type} (f : Node → S → S * bool).

(** [Walk] on a node whose children are walked by [children]. *)
Definition visit (n : Node) (children : S → S) (s : S) : S :=
  let '(s1, descend) := f n s in
  if descend then (f NilNode (children s1)).1 else s1.

Definition walkList {A} (walk : A → S → S) (l : list A) (s : S) : S :=
  foldl (λ s a, walk a s) s l.

Definition walkIdent (id : Ident) : S → S :=
  visit (ExprNode (IdentExpr id)) (λ s, s).

Definition walkBasicLit (lit : BasicLit) : S → S :=
  visit (ExprNode (BasicLitExpr lit)) (λ s, s).

Fixpoint walkExpr (e : Expr) : S → S :=
  visit (ExprNode e)
    match e with
    | IdentExpr _ | BasicLitExpr _ => λ s, s
    | ParenExpr X | StarExpr X | UnaryExpr X => walkExpr X
    | SelectorExpr X Sel => λ s, walkIdent Sel (walkExpr X s)
    | IndexExpr X Y | BinaryExpr X Y => λ s, walkExpr Y (walkExpr X s)
    | CallExpr Fun Args => λ s, walkList walkExpr Args (walkExpr Fun s)
    end.

Fixpoint walkStmt (st : Stmt) : S → S :=
  visit (StmtNode st)
    match st with
    | ExprStmt X => walkExpr X
    | AssignStmt Lhs Rhs =>
        λ s, walkList walkExpr Rhs (walkList walkExpr Lhs s)
    | ReturnStmt Results => walkList walkExpr Results
    | BlockStmt List => walkList walkStmt List
    end.

Definition walkSpec (sp : Spec) : S → S :=
  visit (SpecNode sp)
    match sp with
    | ImportSpecNode i =>
        λ s, walkBasicLit (Path i)
               (match ImportName i with
                | Some id => walkIdent id s
                | None => s
                end)
    | ValueSpec Names Values =>
        λ s, walkList walkExpr Values (walkList walkIdent Names s)
    | TypeSpec id T => λ s, walkExpr T (walkIdent id s)
    end.

Definition walkDecl (d : Decl) : S → S :=
  visit (DeclNode d)
    match d with
    | GenDecl _ _ Specs _ => walkList walkSpec Specs
    | FuncDecl _ id Body _ =>
        λ s, walkStmt (BlockStmt Body) (walkIdent id s)
    end.

(** [ast.Inspect(file, f)]: depth-first, the package name before the
    declarations. *)
Definition Inspect (file : File) : S → S :=
  visit (FileNode file)
    (λ s, walkList walkDecl (Decls file) (walkIdent (PackageName file) s)).
End Inspect.

End ast.

(** [types.Object]: what the type checker binds an identifier to. *)
Module types.
Inductive Object :=
| PkgName (name : string)
| Const (name : string)
| TypeName (name : string)
| Var (name : string)
| Func (name : string).
End types.

(** ** Bytes that a Go string literal writes with an escape *)

Definition newline : string := String "010"%char EmptyString.
Definition tab : string := String "009"%char EmptyString.
Definition dquote : string := String "034"%char EmptyString.

(** [bytes.Buffer.WriteString]. *)
Definition WriteString (buffer s : string) : string := buffer +:+ s.

(** ** The log and the edit set that a refactoring writes to *)

Inductive Severity := INFO | WARNING | ERROR | FATAL_ERROR.

(** The log: its entries, oldest first. *)
Definition Log := list (Severity * string).

(** [log.Log(severity, message)]. *)
Definition Log_Log (severity : Severity) (message : string) (log : Log) : Log :=
  log ++ [(severity, message)].

Record OffsetLength := { Offset : Z; Length : Z }.

(** The edit set: the replacements staged so far, as [Add] received them. *)
Definition EditSetLog := list (string * OffsetLength * string).

Definition editSet_Add (filename : string) (pos : OffsetLength)
    (replacement : string) (es : EditSetLog) : EditSetLog :=
  es ++ [(filename, pos, replacement)].

(** ** fiximports.go *)

Module FixImports.
Import ast.

(** The fields of [RefactoringBase] that the transformation reads.
    [Fset_Offset pos] is [r.importer.Fset.Position(pos).Offset]. *)
Record FixImportsTransformation := {
  filename : string;
  file : option File;
  pkgInfo_ObjectOf : Ident → option types.Object;
  Fset_Offset : Pos → Z
}.

(** What the transformation mutates. *)
Record Session := { log : Log; editSet : EditSetLog }.

Definition goLibraryPackages : list string := [
  "archive"; "archive/tar"; "archive/zip"; "bufio"; "builtin"; "bytes";
  "compress"; "compress/bzip2"; "compress/flate"; "compress/gzip";
  "compress/lzw"; "compress/zlib"; "container"; "container/heap";
  "container/list"; "container/ring"; "crypto"; "crypto/aes";
  "crypto/cipher"; "crypto/des"; "crypto/dsa"; "crypto/ecdsa";
  "crypto/elliptic"; "crypto/hmac"; "crypto/md5"; "crypto/rand";
  "crypto/rc4"; "crypto/rsa"; "crypto/sha1"; "crypto/sha256";
  "crypto/sha512"; "crypto/subtle"; "crypto/tls"; "crypto/x509";
  "crypto/x509/pkix"; "database"; "database/sql"; "database/sql/driver";
  "debug"; "debug/dwarf"; "debug/elf"; "debug/gosym"; "debug/macho";
  "debug/pe"; "encoding"; "encoding/ascii85"; "encoding/asn1";
  "encoding/base32"; "encoding/base64"; "encoding/binary"; "encoding/csv";
  "encoding/gob"; "encoding/hex"; "encoding/json"; "encoding/pem";
  "encoding/xml"; "errors"; "expvar"; "flag"; "fmt"; "go"; "go/ast";
  "go/build"; "go/doc"; "go/format"; "go/parser"; "go/printer";
  "go/scanner"; "go/token"; "hash"; "hash/adler32"; "hash/crc32";
  "hash/crc64"; "hash/fnv"; "html"; "html/template"; "image";
  "image/color"; "image/color/palette"; "image/draw"; "image/gif";
  "image/jpeg"; "image/png"; "index"; "index/suffixarray"; "io";
  "io/ioutil"; "log"; "log/syslog"; "math"; "math/big"; "math/cmplx";
  "math/rand"; "mime"; "mime/multipart"; "net"; "net/http"; "net/http/cgi";
  "net/http/cookiejar"; "net/http/fcgi"; "net/http/httptest";
  "net/http/httputil"; "net/http/pprof"; "net/mail"; "net/rpc";
  "net/rpc/jsonrpc"; "net/smtp"; "net/textproto"; "net/url"; "os";
  "os/exec"; "os/signal"; "os/user"; "path"; "path/filepath"; "reflect";
  "regexp"; "regexp/syntax"; "runtime"; "runtime/cgo"; "runtime/debug";
  "runtime/pprof"; "runtime/race"; "sort"; "strconv"; "strings"; "sync";
  "sync/atomic"; "syscall"; "testing"; "testing/iotest"; "testing/quick";
  "text"; "text/scanner"; "text/tabwriter"; "text/template";
  "text/template/parse"; "time"; "unicode"; "unicode/utf16";
  "unicode/utf8"; "unsafe"  ].

Section Methods.
(** The methods below run after [Run] has checked [r.file]; [file] is
    the file it points to. *)
Context (r : FixImportsTransformation) (file : File).

Definition collectReferencedPackages : gmap string string :=
  Inspect (λ n (packagesReferenced : gmap string string),
    match n with
    | ExprNode (IdentExpr ident) =>
        match pkgInfo_ObjectOf r ident with
        | Some (types.PkgName name) =>
            (<[name := ""]> packagesReferenced, true)
        | _ => (packagesReferenced, true)
        end
    | _ => (packagesReferenced, true)
    end) file ∅.

Definition findUsedImports : gmap string string :=
  let packagesReferenced := collectReferencedPackages in
  foldl (λ (imports : gmap string string) imprt,
    let path := Value (Path imprt) in
    let name :=
      match ImportName imprt with
      | Some id => Name id
      | None => ""
      end in
    let foundName := bool_decide (is_Some (packagesReferenced !! name)) in
    let foundPkg := bool_decide (is_Some (packagesReferenced !! path)) in
    if foundName || foundPkg then <[path := name]> imports else imports)
    ∅ (Imports file).

(** The closure never looks at [ident]. Returning [false] from the
    callback only prunes the walk below the selector. *)
Definition isIdentInLHSOfSelectorExpr (ident : Ident) : bool :=
  Inspect (λ n (result : bool),
    match n with
    | ExprNode (SelectorExpr (IdentExpr _) _) => (true, false)
    | _ => (result, true)
    end) file false.

Definition resolveSelector (ident : Ident) (lg : Log) : string * Log :=
  let candidates :=
    foldl (λ candidates pkg,
      let components := strings.Split pkg "/"%char in
      let last := default "" (components !! (length components - 1)%nat) in
      if String.eqb last (Name ident) then candidates ++ [pkg]
      else candidates) [] goLibraryPackages in
  if Nat.eqb (length candidates) 1 then
    (dquote +:+ default "" (candidates !! 0%nat) +:+ dquote, lg)
  else
    let message := WriteString "" "There are multiple packages named " in
    let message := WriteString message (Name ident) in
    let message := WriteString message (":" +:+ newline) in
    let message :=
      foldl (λ message candidate,
        WriteString message ("    " +:+ candidate +:+ newline))
        message candidates in
    ("", Log_Log ERROR message lg).

Definition resolve (ident : Ident) (lg : Log) : string * Log :=
  if isIdentInLHSOfSelectorExpr ident then resolveSelector ident lg
  else ("", Log_Log ERROR ("Unable to resolve " +:+ Name ident) lg).

(** [r.file.Decls[0]] panics on an empty slice. *)
Definition findFirstDeclOffset : Outcome Z :=
  match Decls file with
  | d :: _ => Ok (Fset_Offset r (DeclPos d))
  | [] => Panic "runtime error: index out of range"
  end.

Definition findImportStatementRange : OffsetLength :=
  let '(startPos, endPos) :=
    Inspect (λ n '(startPos, endPos),
      match n with
      | DeclNode (GenDecl pos Tok _ end_ as node) =>
          match Tok with
          | IMPORT =>
              ((if Z.eqb startPos 0 then DeclPos node else startPos,
                DeclEnd node), true)
          | _ => ((startPos, endPos), true)
          end
      | _ => ((startPos, endPos), true)
      end) file (0, 0) in
  let startOffset := Fset_Offset r startPos in
  let endOffset := Fset_Offset r endPos in
  let length := endOffset - startOffset + 1 in
  {| Offset := startOffset; Length := length |}.

Definition findReplacementRange : Outcome (OffsetLength * string) :=
  if Nat.eqb (length (Imports file)) 0 then
    match findFirstDeclOffset with
    | Ok offset => Ok ({| Offset := offset; Length := 0 |}, newline)
    | Err e => Err e
    | Panic msg => Panic msg
    end
  else Ok (findImportStatementRange, "").

(** [range importSet] yields the entries in an order the language leaves
    open; [order] is the order of one run. *)
Definition constructNewImportStatementIn (order : list (string * string))
    : string :=
  let imports :=
    foldl (λ imports '(path, name),
      let thisImport :=
        if String.eqb name "" then path else name +:+ " " +:+ path in
      imports ++ [thisImport]) [] order in
  let imports := sort.Strings imports in
  let buffer := WriteString "" ("import (" +:+ newline) in
  let buffer :=
    foldl (λ buffer line,
      let buffer := WriteString buffer tab in
      let buffer := WriteString buffer line in
      WriteString buffer newline) buffer imports in
  WriteString buffer (")" +:+ newline).

Definition constructNewImportStatement (importSet : gmap string string)
    : string :=
  constructNewImportStatementIn (map_to_list importSet).

Definition fixImports (imports : gmap string string) (s : Session)
    : Outcome unit * Session :=
  match findReplacementRange with
  | Ok (replaceRange, suffix) =>
      let replacement := constructNewImportStatement imports +:+ suffix in
      (Ok tt, {| log := log s;
                 editSet := editSet_Add (filename r) replaceRange
                              replacement (editSet s) |})
  | Err e => (Err e, s)
  | Panic msg => (Panic msg, s)
  end.
End Methods.

Section Run.
(** [log.RemoveInitialErrors] belongs to the log, whose code the
    transformation only calls. *)
Context (RemoveInitialErrors : Log → Log).

Definition Run (r : FixImportsTransformation) (s : Session)
    : Outcome unit * Session :=
  match file r with
  | None =>
      (Ok tt, {| log := Log_Log FATAL_ERROR "file cannot be null" (log s);
                 editSet := editSet s |})
  | Some f =>
      let lg := RemoveInitialErrors (log s) in
      let imports := findUsedImports r f in
      let '(imports, lg) :=
        foldl (λ '(imports, lg) ident,
          let '(resolved, lg) := resolve f ident lg in
          if negb (String.eqb resolved "")
          then (<[resolved := ""]> imports, lg)
          else (imports, lg)) (imports, lg) (Unresolved f) in
      fixImports r f imports {| log := lg; editSet := editSet s |}
  end.
End Run.

End FixImports.

(** ** The host the file systems run on *)

(** The persistent file store, as a finite map from a path to the content
    of the file there (no directories, no permissions), and the process
    environment. *)
Record Host := {
  disk : gmap string string;
  environ : gmap string string
}.

Module os.

Definition Getenv (key : string) (h : Host) : string :=
  default "" (environ h !! key).

(** [os.Open] followed by reading the file to its end. *)
Definition Open (name : string) (h : Host) : Outcome string :=
  match disk h !! name with
  | Some contents => Ok contents
  | None => Err ("open " +:+ name +:+ ": no such file or directory")
  end.

(** [os.IsNotExist] of the error of [os.Stat]. *)
Definition StatIsNotExist (name : string) (h : Host) : bool :=
  bool_decide (disk h !! name = None).

End os.

(** The calls by which the local file system changes the host. Each
    returns [nil] or an error, for reasons the store of [Host] does not
    show (a missing parent directory, a directory in the way, permissions),
    and leaves the host in some state; nothing more is assumed of them. A
    file that [os.Create] opened is named by its path. *)
Class OsLib := {
  os_Create : string → Host → option error * Host;
  io_WriteString : string → string → Host → option error * Host;
  file_Close : string → Host → option error * Host;
  os_Rename : string → string → Host → option error * Host;
  os_Remove : string → Host → option error * Host
}.

(** A function that ends in [return err]. *)
Definition returned {St : Type} (r : option error * St) : Outcome unit * St :=
  match r with
  | (Some err, st) => (Err err, st)
  | (None, st) => (Ok tt, st)
  end.

Module filepath.
(** [filepath.Split] where the separator is the slash. *)
Definition Split (p : string) : string * string := path.Split p.
End filepath.

(** ** filesystem.go *)

(** The [FileSystem] interface. [Fs] is the file system together with
    everything its methods can change. [ReadDir] is left out: it lists
    directories, which [Host] does not have. *)
Class FileSystem (Fs : Type) := {
  OpenFile : string → Fs → Outcome string * Fs;
  CreateFile : string → string → Fs → Outcome unit * Fs;
  Rename : string → string → Fs → Outcome unit * Fs;
  Remove : string → Fs → Outcome unit * Fs
}.

Definition isBareFilename (filePath : string) : bool :=
  let '(dir, _) := path.Split filePath in
  String.eqb dir "".

Module LocalFileSystem.

Definition OpenFile (path : string) (h : Host) : Outcome string * Host :=
  match os.Open path h with
  | Ok f => (Ok f, h)
  | Err err => (Err err, h)
  | Panic msg => (Panic msg, h)
  end.

Definition CreateFile `{OsLib} (path contents : string) (h : Host)
    : Outcome unit * Host :=
  if negb (os.StatIsNotExist path h) then
    (Err ("Path already exists: " +:+ path), h)
  else
    match os_Create path h with
    | (Some err, h) => (Err err, h)
    | (None, h) =>
        match io_WriteString path contents h with
        | (Some err, h) =>
            let '(_, h) := file_Close path h in
            (Err err, h)
        | (None, h) =>
            match file_Close path h with
            | (Some err, h) => (Err err, h)
            | (None, h) => (Ok tt, h)
            end
        end
    end.

Definition Rename `{PathLib} `{OsLib} (oldPath newName : string) (h : Host)
    : Outcome unit * Host :=
  if negb (isBareFilename newName) then
    (Err ("newName must be a bare filename: " +:+ newName), h)
  else
    let newPath := path_Join (path_Dir oldPath) newName in
    returned (os_Rename oldPath newPath h).

Definition Remove `{OsLib} (path : string) (h : Host) : Outcome unit * Host :=
  returned (os_Remove path h).

End LocalFileSystem.

#[export] Instance LocalFileSystem_FileSystem `{PathLib} `{OsLib}
    : FileSystem Host := {
  OpenFile := LocalFileSystem.OpenFile;
  CreateFile := LocalFileSystem.CreateFile;
  Rename := LocalFileSystem.Rename;
  Remove := LocalFileSystem.Remove
}.

Module EditedFileSystem.

Section Edited.
(** [EditSet] and [ApplyToReader] are defined with the edit sets; the
    file system only passes the bytes it read to [ApplyToReader]. *)
Context {EditSet : Type}.
Context (ApplyToReader : EditSet → string → Outcome string).

Definition OpenFile (path : string) (fs : gmap string EditSet * Host)
    : Outcome string * (gmap string EditSet * Host) :=
  let '(Edits, h) := fs in
  let '(local, h) := LocalFileSystem.OpenFile path h in
  match local, Edits !! path with
  | Ok localReader, Some editSet =>
      match ApplyToReader editSet localReader with
      | Ok contents => (Ok contents, (Edits, h))
      | Err err => (Err err, (Edits, h))
      | Panic msg => (Panic msg, (Edits, h))
      end
  | _, _ => (local, (Edits, h))
  end.

Definition CreateFile (path contents : string)
    (fs : gmap string EditSet * Host)
    : Outcome unit * (gmap string EditSet * Host) :=
  (Panic "CreateFile unsupported", fs).

Definition CreateDirectory (path : string)
    (fs : gmap string EditSet * Host)
    : Outcome unit * (gmap string EditSet * Host) :=
  (Panic "CreateDirectory unsupported", fs).

Definition Rename (path newName : string)
    (fs : gmap string EditSet * Host)
    : Outcome unit * (gmap string EditSet * Host) :=
  (Panic "Rename unsupported", fs).

Definition Remove (path : string) (fs : gmap string EditSet * Host)
    : Outcome unit * (gmap string EditSet * Host) :=
  (Panic "Remove unsupported", fs).
End Edited.

End EditedFileSystem.

#[export] Instance EditedFileSystem_FileSystem {EditSet : Type}
    (ApplyToReader : EditSet → string → Outcome string)
    : FileSystem (gmap string EditSet * Host) := {
  OpenFile := EditedFileSystem.OpenFile ApplyToReader;
  CreateFile := EditedFileSystem.CreateFile;
  Rename := EditedFileSystem.Rename;
  Remove := EditedFileSystem.Remove
}.

Module VirtualFileSystem.

(** The file system is its table [files] (a path to its content); its
    methods also read the host. *)
Definition NewVirtualFileSystem : gmap string string := ∅.

Definition isInGoRoot (path : string) (h : Host) : bool :=
  strings.HasPrefix path (os.Getenv "GOROOT" h).

Definition OpenFile (path : string) (fs : gmap string string * Host)
    : Outcome string * (gmap string string * Host) :=
  let '(files, h) := fs in
  if isInGoRoot path h then
    match os.Open path h with
    | Ok f => (Ok f, fs)
    | Err err => (Err err, fs)
    | Panic msg => (Panic msg, fs)
    end
  else
    let '(_, fname) := filepath.Split path in
    match files !! fname with
    | None => (Err ("Virtual file not found: " +:+ fname), fs)
    | Some contents => (Ok contents, fs)
    end.

Definition CreateFile (path contents : string)
    (fs : gmap string string * Host)
    : Outcome unit * (gmap string string * Host) :=
  let '(files, h) := fs in
  match files !! path with
  | Some _ => (Err ("File already exists: " +:+ path), fs)
  | None => (Ok tt, (<[path := contents]> files, h))
  end.

Definition Rename (path newName : string) (fs : gmap string string * Host)
    : Outcome unit * (gmap string string * Host) :=
  let '(files, h) := fs in
  match files !! path with
  | None => (Err ("File does not exist: " +:+ path), fs)
  | Some contents =>
      match files !! newName with
      | Some _ => (Err ("File already exists: " +:+ newName), fs)
      | None => (Ok tt, (delete path (<[newName := contents]> files), h))
      end
  end.

Definition Remove (path : string) (fs : gmap string string * Host)
    : Outcome unit * (gmap string string * Host) :=
  let '(files, h) := fs in
  match files !! path with
  | None => (Err ("File does not exist: " +:+ path), fs)
  | Some _ => (Ok tt, (delete path files, h))
  end.

End VirtualFileSystem.

#[export] Instance VirtualFileSystem_FileSystem
    : FileSystem (gmap string string * Host) := {
  OpenFile := VirtualFileSystem.OpenFile;
  CreateFile := VirtualFileSystem.CreateFile;
  Rename := VirtualFileSystem.Rename;
  Remove := VirtualFileSystem.Remove
}.

(** *** File system changes *)

Inductive FileSystemChange :=
| fsCreateFile (path contents : string)
| fsRemove (path : string)
| fsRename (path newName : string).

Definition ExecuteUsing {Fs : Type} `{!FileSystem Fs}
    (chg : FileSystemChange) (fs : Fs) : Outcome unit * Fs :=
  match chg with
  | fsCreateFile path contents => CreateFile path contents fs
  | fsRemove path => Remove path fs
  | fsRename path newName => Rename path newName fs
  end.

Fixpoint Execute {Fs : Type} `{!FileSystem Fs}
    (changes : list FileSystemChange) (fs : Fs) : Outcome unit * Fs :=
  match changes with
  | [] => (Ok tt, fs)
  | chg :: changes =>
      match ExecuteUsing chg fs with
      | (Ok _, fs) => Execute changes fs
      | (Err err, fs) => (Err err, fs)
      | (Panic msg, fs) => (Panic msg, fs)
      end
  end.

(** * The notions the properties are stated with *)

(** One line of the import block for the entry [(path, alias)] of an
    import set: the alias, a space and the path, or the path alone. *)
Definition importLine (entry : string * string) : string :=
  let '(path, alias) := entry in
  if decide (alias = "") then path else alias +:+ " " +:+ path.

(** The single block around the given lines. *)
Definition importBlock (lines : list string) : string :=
  "import (" +:+ newline +:+
  foldr (λ line rest, tab +:+ line +:+ newline +:+ rest)
    (")" +:+ newline) lines.

(** [ident] is the left operand of some qualified access of the file. *)
Definition isLeftOperandOfSelector (file : ast.File) (ident : ast.Ident)
    : bool :=
  ast.Inspect (λ n (found : bool),
    match n with
    | ast.ExprNode (ast.SelectorExpr (ast.IdentExpr x) _) =>
        (found || bool_decide (ast.NamePos x = ast.NamePos ident
                               ∧ ast.Name x = ast.Name ident), true)
    | _ => (found, true)
    end) file false.

(** The import declarations of a file: its top-level [import] blocks. *)
Definition isImportDecl (d : ast.Decl) : bool :=
  match d with
  | ast.GenDecl _ ast.IMPORT _ _ => true
  | _ => false
  end.

Definition importDecls (file : ast.File) : list ast.Decl :=
  filter (λ d, isImportDecl d = true) (ast.Decls file).

Definition importSpecsOf (d : ast.Decl) : list ast.ImportSpec :=
  match d with
  | ast.GenDecl _ ast.IMPORT Specs _ =>
      omap (λ sp, match sp with
                  | ast.ImportSpecNode i => Some i
                  | _ => None
                  end) Specs
  | _ => []
  end.

(** The callback [f] of a walk ignores the node [n]: it keeps what it
    captured and lets the walk go on. *)
Definition inert {S : Type} (f : ast.Node → S → S * bool) (n : ast.Node)
    : Prop :=
  ∀ s, f n s = (s, true).

(** What the callback of [findImportStatementRange] does to the positions
    it tracks when it is handed the declaration [d]. *)
Definition trackImport (d : ast.Decl) (s : ast.Pos * ast.Pos)
    : ast.Pos * ast.Pos :=
  if isImportDecl d
  then (if Z.eqb s.1 0 then ast.DeclPos d else s.1, ast.DeclEnd d)
  else s.

(** The name under which an import is looked up besides its path: its
    alias, or the empty string when it has none. *)
Definition aliasOf (imprt : ast.ImportSpec) : string :=
  match ast.ImportName imprt with
  | Some id => ast.Name id
  | None => ""
  end.

(** The import is kept by pruning against the set [referenced]. *)
Definition kept (referenced : gmap string string) (imprt : ast.ImportSpec)
    : Prop :=
  is_Some (referenced !! aliasOf imprt) ∨
  is_Some (referenced !! ast.Value (ast.Path imprt)).

(** The final segment of a slash-separated module path. *)
Definition lastSegment (pkg : string) : string :=
  default "" (last (strings.Split pkg "/"%char)).

(** The catalog entries whose final segment is [name]. *)
Definition candidatesFor (name : string) : list string :=
  filter (λ pkg, lastSegment pkg = name) FixImports.goLibraryPackages.

(** The diagnostic of an ambiguous name: a heading and one line for each
    candidate, by full path. *)
Definition ambiguityMessage (name : string) (candidates : list string)
    : string :=
  "There are multiple packages named " +:+ name +:+ ":" +:+ newline +:+
  foldr (λ candidate rest, "    " +:+ candidate +:+ newline +:+ rest)
    "" candidates.

(** What the parser guarantees of [File.Imports]: it lists the import
    specs of the file's import declarations, in order. *)
Definition importsFromDecls (file : ast.File) : Prop :=
  ast.Imports file = mbind importSpecsOf (ast.Decls file).

(** The changes of [changes] all succeed when run in order from [fs], and
    leave [fs']. *)
Inductive Applied {Fs : Type} `{!FileSystem Fs}
    : list FileSystemChange → Fs → Fs → Prop :=
| Applied_nil fs : Applied [] fs fs
| Applied_cons chg changes fs fs1 fs2 :
    ExecuteUsing chg fs = (Ok tt, fs1) →
    Applied changes fs1 fs2 →
    Applied (chg :: changes) fs fs2.

(** ** What a walk of the syntax tree meets *)

Module Syntax.
Import ast.

(** The identifiers of an expression, in the order [ast.Inspect] visits
    them. *)
Fixpoint identsOfExpr (e : Expr) : list Ident :=
  match e with
  | IdentExpr id => [id]
  | BasicLitExpr _ => []
  | ParenExpr X | StarExpr X | UnaryExpr X => identsOfExpr X
  | SelectorExpr X Sel => identsOfExpr X ++ [Sel]
  | IndexExpr X Y | BinaryExpr X Y => identsOfExpr X ++ identsOfExpr Y
  | CallExpr Fun Args => identsOfExpr Fun ++ concat (identsOfExpr <$> Args)
  end.

Fixpoint identsOfStmt (st : Stmt) : list Ident :=
  match st with
  | ExprStmt X => identsOfExpr X
  | AssignStmt Lhs Rhs =>
      concat (identsOfExpr <$> Lhs) ++ concat (identsOfExpr <$> Rhs)
  | ReturnStmt Results => concat (identsOfExpr <$> Results)
  | BlockStmt List => concat (identsOfStmt <$> List)
  end.

Definition identsOfSpec (sp : Spec) : list Ident :=
  match sp with
  | ImportSpecNode i => option_list (ImportName i)
  | ValueSpec Names Values => Names ++ concat (identsOfExpr <$> Values)
  | TypeSpec id T => id :: identsOfExpr T
  end.

Definition identsOfDecl (d : Decl) : list Ident :=
  match d with
  | GenDecl _ _ Specs _ => concat (identsOfSpec <$> Specs)
  | FuncDecl _ id Body _ => id :: concat (identsOfStmt <$> Body)
  end.

Definition identsOfFile (file : File) : list Ident :=
  PackageName file :: concat (identsOfDecl <$> Decls file).

(** Some qualified access in the expression has an identifier as its left
    operand. *)
Fixpoint exprSelectsOnIdent (e : Expr) : bool :=
  match e with
  | IdentExpr _ | BasicLitExpr _ => false
  | SelectorExpr (IdentExpr _) _ => true
  | SelectorExpr X _ => exprSelectsOnIdent X
  | ParenExpr X | StarExpr X | UnaryExpr X => exprSelectsOnIdent X
  | IndexExpr X Y | BinaryExpr X Y =>
      exprSelectsOnIdent X || exprSelectsOnIdent Y
  | CallExpr Fun Args =>
      exprSelectsOnIdent Fun || existsb exprSelectsOnIdent Args
  end.

Fixpoint stmtSelectsOnIdent (st : Stmt) : bool :=
  match st with
  | ExprStmt X => exprSelectsOnIdent X
  | AssignStmt Lhs Rhs =>
      existsb exprSelectsOnIdent Lhs || existsb exprSelectsOnIdent Rhs
  | ReturnStmt Results => existsb exprSelectsOnIdent Results
  | BlockStmt List => existsb stmtSelectsOnIdent List
  end.

Definition specSelectsOnIdent (sp : Spec) : bool :=
  match sp with
  | ImportSpecNode _ => false
  | ValueSpec _ Values => existsb exprSelectsOnIdent Values
  | TypeSpec _ T => exprSelectsOnIdent T
  end.

Definition declSelectsOnIdent (d : Decl) : bool :=
  match d with
  | GenDecl _ _ Specs _ => existsb specSelectsOnIdent Specs
  | FuncDecl _ _ Body _ => existsb stmtSelectsOnIdent Body
  end.

Definition fileSelectsOnIdent (file : File) : bool :=
  existsb declSelectsOnIdent (Decls file).

End Syntax.

(** The callback of [isIdentInLHSOfSelectorExpr]. *)
Definition selectorCallback (n : ast.Node) (result : bool) : bool * bool :=
  match n with
  | ast.ExprNode (ast.SelectorExpr (ast.IdentExpr _) _) => (true, false)
  | _ => (result, true)
  end.

(** What [resolve] returns for [ident] in [file]: the import to stage, or
    the empty string. *)
Definition resolvedImport (file : ast.File) (ident : ast.Ident) : string :=
  (FixImports.resolve file ident []).1.

(** The declaration [d2] starts where [d1] ends, or later. *)
Definition follows (d1 d2 : ast.Decl) : Prop :=
  ast.DeclEnd d1 ≤ ast.DeclPos d2.

(** The declaration has a valid start and does not end before it. *)
Definition validSpan (d : ast.Decl) : Prop :=
  ast.DeclPos d ≠ 0 ∧ ast.DeclPos d ≤ ast.DeclEnd d.

(** The path holds a slash. *)
Fixpoint containsSlash (p : string) : bool :=
  match p with
  | EmptyString => false
  | String c p' => Ascii.eqb c "/"%char || containsSlash p'
  end.

(** * Example inputs *)

Module Examples.
Import ast FixImports.

Definition ident (pos : Pos) (name : string) : Ident :=
  {| NamePos := pos; Name := name |}.

(** An import spec without alias; the path literal carries its quotes. *)
Definition importOf (pos : Pos) (path : string) : ImportSpec :=
  {| ImportName := None;
     Path := {| ValuePos := pos; Value := dquote +:+ path +:+ dquote |} |}.

(** The file
<<
package main

import "fmt"
import "os"

func main() {
	fmt.Println(y)
}
>>
    with the positions of a file set whose base is 1. The parser leaves
    [fmt] and [y] unresolved; the type checker binds [fmt]. *)
Definition mainFile : File := {|
  PackageName := ident 9 "main";
  Decls := [
    GenDecl 15 IMPORT [ImportSpecNode (importOf 22 "fmt")] 27;
    GenDecl 28 IMPORT [ImportSpecNode (importOf 35 "os")] 39;
    FuncDecl 41 (ident 46 "main")
      [ExprStmt (CallExpr
         (SelectorExpr (IdentExpr (ident 56 "fmt")) (ident 60 "Println"))
         [IdentExpr (ident 68 "y")])] 72 ];
  Imports := [importOf 22 "fmt"; importOf 35 "os"];
  Unresolved := [ident 56 "fmt"; ident 68 "y"]
|}.

Definition offsetOf (pos : Pos) : Z := if Z.eqb pos 0 then 0 else pos - 1.

Definition mainRefactoring : FixImportsTransformation := {|
  filename := "main.go";
  file := Some mainFile;
  pkgInfo_ObjectOf := λ id,
    if Z.eqb (NamePos id) 56 then Some (types.PkgName "fmt") else None;
  Fset_Offset := offsetOf
|}.

(** The file
<<
package main

import f "fmt"

func main() {
	f.Println()
}
>>
    in which the import has an alias, bound by the type checker where it
    is declared and where it is used. *)
Definition aliasedFile : File := {|
  PackageName := ident 9 "main";
  Decls := [
    GenDecl 15 IMPORT
      [ImportSpecNode
         {| ImportName := Some (ident 22 "f");
            Path := {| ValuePos := 24;
                       Value := dquote +:+ "fmt" +:+ dquote |} |}] 29;
    FuncDecl 31 (ident 36 "main")
      [ExprStmt (CallExpr
         (SelectorExpr (IdentExpr (ident 46 "f")) (ident 48 "Println"))
         [])] 59 ];
  Imports := [{| ImportName := Some (ident 22 "f");
                 Path := {| ValuePos := 24;
                            Value := dquote +:+ "fmt" +:+ dquote |} |}];
  Unresolved := [ident 46 "f"]
|}.

Definition aliasedRefactoring : FixImportsTransformation := {|
  filename := "aliased.go";
  file := Some aliasedFile;
  pkgInfo_ObjectOf := λ id,
    if String.eqb (Name id) "f" then Some (types.PkgName "f") else None;
  Fset_Offset := offsetOf
|}.

(** A file with a package clause and nothing else. *)
Definition emptyFile : File := {|
  PackageName := ident 9 "main";
  Decls := [];
  Imports := [];
  Unresolved := []
|}.

Definition emptyRefactoring : FixImportsTransformation := {|
  filename := "empty.go";
  file := Some emptyFile;
  pkgInfo_ObjectOf := λ _, None;
  Fset_Offset := offsetOf
|}.

Definition noHost : Host := {| disk := ∅; environ := ∅ |}.



(** The file
<<
package main

import ()

func main() {}
>>
    whose only import declaration is empty: the parser lists no import
    for it. *)
Definition emptyImportFile : File := {|
  PackageName := ident 9 "main";
  Decls := [ GenDecl 15 IMPORT [] 24;
             FuncDecl 26 (ident 31 "main") [] 40 ];
  Imports := [];
  Unresolved := []
|}.

Definition emptyImportRefactoring : FixImportsTransformation := {|
  filename := "emptyimport.go";
  file := Some emptyImportFile;
  pkgInfo_ObjectOf := λ _, None;
  Fset_Offset := offsetOf
|}.

(** A host with an empty disk whose Go root is set. *)
Definition goHost : Host :=
  {| disk := ∅; environ := {[ "GOROOT" := "/usr/lib/go" ]} |}.
End Examples.

(** * Facts about the library functions *)

Lemma append_empty_r (s : string) : s +:+ "" = s.
Proof.
  induction s as [|c s IH]; [done|].
  change (String c (s +:+ "") = String c s). by rewrite IH.
Qed.

Lemma append_assoc (s1 s2 s3 : string) :
  (s1 +:+ s2) +:+ s3 = s1 +:+ (s2 +:+ s3).
Proof.
  induction s1 as [|c s1 IH]; [done|].
  change (String c ((s1 +:+ s2) +:+ s3) = String c (s1 +:+ s2 +:+ s3)).
  by rewrite IH.
Qed.

Lemma eqb_empty_decide (s : string) :
  String.eqb s "" = bool_decide (s = "").
Proof.
  destruct (String.eqb_spec s ""); symmetry;
    [by apply bool_decide_eq_true | by apply bool_decide_eq_false].
Qed.

Lemma path_Split_bare (p : string) :
  isBareFilename p = true → path.Split p = ("", p).
Proof.
  unfold isBareFilename. induction p as [|c p IH]; simpl; [done|].
  destruct (path.Split p) as [dir f] eqn:Hsplit.
  destruct (Ascii.eqb c "/"); [done|].
  destruct dir; [|done].
  intros _. specialize (IH eq_refl). by simplify_eq.
Qed.

Lemma sort_Strings_Sorted (a : list string) : Sorted String.le (sort.Strings a).
Proof. apply (Sorted_merge_sort String.le). Qed.

Lemma sort_Strings_Permutation (a : list string) : sort.Strings a ≡ₚ a.
Proof. apply merge_sort_Permutation. Qed.

(** The sorted slice depends on the elements only, not on their order. *)
Lemma sort_Strings_order_irrelevant (a b : list string) :
  a ≡ₚ b → sort.Strings a = sort.Strings b.
Proof.
  intros Hab. apply (Sorted_unique String.le); auto using sort_Strings_Sorted.
  by rewrite !sort_Strings_Permutation.
Qed.

(** * The import block *)

Section Serialization.
Import FixImports.

Lemma rendered_lines (order : list (string * string)) (done : list string) :
  foldl (λ imports '(path, name),
    let thisImport :=
      if String.eqb name "" then path else name +:+ " " +:+ path in
    imports ++ [thisImport]) done order
  = done ++ (importLine <$> order).
Proof.
  revert done. induction order as [|[path name] order IH]; intros done; simpl.
  - by rewrite app_nil_r.
  - rewrite IH, <- app_assoc. simpl. rewrite eqb_empty_decide.
    by destruct (decide (name = "")); [rewrite bool_decide_eq_true_2
                                      | rewrite bool_decide_eq_false_2].
Qed.

Lemma written_lines (lines : list string) (buffer tail : string) :
  foldl (λ buffer line,
    let buffer := WriteString buffer tab in
    let buffer := WriteString buffer line in
    WriteString buffer newline) buffer lines +:+ tail
  = buffer +:+ foldr (λ line rest, tab +:+ line +:+ newline +:+ rest)
                 tail lines.
Proof.
  revert buffer. induction lines as [|line lines IH]; intros buffer; simpl.
  - done.
  - rewrite IH. unfold WriteString. by rewrite !append_assoc.
Qed.

Lemma constructNewImportStatementIn_block (order : list (string * string)) :
  constructNewImportStatementIn order
  = importBlock (sort.Strings (importLine <$> order)).
Proof.
  unfold constructNewImportStatementIn, importBlock.
  rewrite rendered_lines. simpl app.
  unfold WriteString at 1 2. rewrite written_lines.
  simpl. by rewrite !append_assoc.
Qed.
End Serialization.

(** C5. Serializing an import set gives one line per entry ([alias path],
    or [path] alone when the alias is empty), the lines in lexicographic
    order inside a single block; the text is the same for every order in
    which the entries of the set are enumerated. *)
Theorem serialization_is_deterministic
    (importSet : gmap string string) (order : list (string * string)) :
  order ≡ₚ map_to_list importSet →
  ∃ lines : list string,
    lines ≡ₚ importLine <$> map_to_list importSet ∧
    Sorted String.le lines ∧
    FixImports.constructNewImportStatementIn order = importBlock lines ∧
    FixImports.constructNewImportStatement importSet = importBlock lines.
Proof.
  intros Horder.
  exists (sort.Strings (importLine <$> map_to_list importSet)).
  split; [apply sort_Strings_Permutation|].
  split; [apply sort_Strings_Sorted|].
  unfold FixImports.constructNewImportStatement.
  rewrite !constructNewImportStatementIn_block. split; [|done].
  f_equal. apply sort_Strings_order_irrelevant. by rewrite Horder.
Qed.

Lemma serialization_is_deterministic_witness :
  ∃ lines : list string,
    lines ≡ₚ importLine <$>
      map_to_list ({[ "os" := "sys"; "fmt" := "" ]} : gmap string string) ∧
    Sorted String.le lines ∧
    FixImports.constructNewImportStatementIn [("fmt", ""); ("os", "sys")]
      = importBlock lines ∧
    FixImports.constructNewImportStatement {[ "os" := "sys"; "fmt" := "" ]}
      = importBlock lines.
Proof.
  apply (serialization_is_deterministic
           {[ "os" := "sys"; "fmt" := "" ]} [("fmt", ""); ("os", "sys")]).
  vm_compute. apply perm_swap.
Defined.

(** * The file systems *)

(** C7. On the overlay file system, opening a file that exists on disk
    returns its bytes with the pending edit set of that path applied, or the
    bytes as they are when the path has no edit set; the disk (and the edit
    sets) are the same after the call. *)
Theorem overlay_OpenFile_applies_edits_and_leaves_disk
    {EditSet : Type} (ApplyToReader : EditSet → string → Outcome string)
    (Edits : gmap string EditSet) (h : Host) (path : string) :
  EditedFileSystem.OpenFile ApplyToReader path (Edits, h)
  = (match disk h !! path with
     | Some bytes =>
         match Edits !! path with
         | Some editSet => ApplyToReader editSet bytes
         | None => Ok bytes
         end
     | None => Err ("open " +:+ path +:+ ": no such file or directory")
     end, (Edits, h)).
Proof.
  unfold EditedFileSystem.OpenFile, LocalFileSystem.OpenFile, os.Open.
  destruct (disk h !! path) as [bytes|]; [|done].
  destruct (Edits !! path) as [editSet|]; [|done].
  by destruct (ApplyToReader editSet bytes).
Qed.

(** When the changes of [before] all succeed in order and the next change
    fails, the batch returns the failure of that change and the state it
    left; the changes of [after] play no part. *)
Lemma Execute_first_failure
    {Fs : Type} `{!FileSystem Fs}
    (before after : list FileSystemChange) (chg : FileSystemChange)
    (fs fs1 fs2 : Fs) (o : Outcome unit) :
  Applied before fs fs1 →
  ExecuteUsing chg fs1 = (o, fs2) →
  failed o = true →
  Execute (before ++ chg :: after) fs = (o, fs2).
Proof.
  intros Hbefore Hchg Hfailed.
  induction Hbefore as [fs|c changes fs fs' fs1 Hc _ IH]; simpl.
  - rewrite Hchg. by destruct o.
  - rewrite Hc. by apply IH.
Qed.

(** A batch whose changes all succeed returns [nil] with all of them
    applied, in order. *)
Lemma Execute_all_applied {Fs : Type} `{!FileSystem Fs}
    (changes : list FileSystemChange) (fs fs' : Fs) :
  Execute changes fs = (Ok tt, fs') ↔ Applied changes fs fs'.
Proof.
  split.
  - revert fs. induction changes as [|chg changes IH]; intros fs; simpl.
    + intros [= <-]. constructor.
    + destruct (ExecuteUsing chg fs) as [[[]| |] fs1] eqn:Hchg; [|done..].
      intros Hrest. econstructor; [exact Hchg | by apply IH].
  - induction 1 as [|????? Hchg _ IH]; simpl; [done|]. by rewrite Hchg.
Qed.

(** Every failure of a batch is the failure of its first failing change. *)
Lemma Execute_failure_inv {Fs : Type} `{!FileSystem Fs}
    (changes : list FileSystemChange) (fs fs' : Fs) (o : Outcome unit) :
  Execute changes fs = (o, fs') → failed o = true →
  ∃ before chg after fs1,
    changes = before ++ chg :: after ∧ Applied before fs fs1 ∧
    ExecuteUsing chg fs1 = (o, fs').
Proof.
  revert fs. induction changes as [|chg changes IH]; intros fs; simpl.
  - by intros [= <- <-].
  - destruct (ExecuteUsing chg fs) as [[[]| |] fs1] eqn:Hchg.
    + intros Hrest Ho.
      destruct (IH _ Hrest Ho) as (before & c & after & fs2 & -> & ? & ?).
      exists (chg :: before), c, after, fs2.
      split; [done|]. split; [by econstructor|done].
    + intros [= <- <-] _. exists [], chg, changes, fs.
      split; [done|]. split; [constructor|done].
    + intros [= <- <-] _. exists [], chg, changes, fs.
      split; [done|]. split; [constructor|done].
Qed.

(** C8. A batch is applied strictly in order and stops at the first
    failure. It returns [nil] exactly when each change succeeds from the
    state the one before left, and then returns the state the last change
    left. When the changes before some change all succeed in order and that
    change fails, the batch returns the failure of that change and the state
    it left, with the changes before it applied and none undone; the changes
    after it are never run. Every failure of a batch arises this way. *)
Theorem Execute_in_order_until_first_failure
    {Fs : Type} `{!FileSystem Fs}
    (changes : list FileSystemChange) (fs : Fs) :
  (∀ fs', Execute changes fs = (Ok tt, fs') ↔ Applied changes fs fs') ∧
  (∀ before chg after fs1 fs2 o,
     changes = before ++ chg :: after →
     Applied before fs fs1 →
     ExecuteUsing chg fs1 = (o, fs2) →
     failed o = true →
     Execute changes fs = (o, fs2)) ∧
  (∀ o fs',
     Execute changes fs = (o, fs') →
     failed o = true →
     ∃ before chg after fs1,
       changes = before ++ chg :: after ∧
       Applied before fs fs1 ∧
       ExecuteUsing chg fs1 = (o, fs')).
Proof.
  split_and!.
  - intros fs'. apply Execute_all_applied.
  - intros before chg after fs1 fs2 o -> Hbefore Hchg Hfailed.
    by apply (Execute_first_failure before after chg fs fs1 fs2 o).
  - intros o fs'. apply Execute_failure_inv.
Qed.

Lemma Execute_in_order_until_first_failure_witness :
  @Execute _ VirtualFileSystem_FileSystem
    [fsCreateFile "x" "text"; fsRename "x" "y"]
    (VirtualFileSystem.NewVirtualFileSystem, {| disk := ∅; environ := ∅ |})
  = (Ok tt, ({[ "y" := "text" ]}, {| disk := ∅; environ := ∅ |})) ∧
  @Execute _ VirtualFileSystem_FileSystem
    [fsCreateFile "x" "text"; fsRemove "y"; fsCreateFile "z" "more"]
    (VirtualFileSystem.NewVirtualFileSystem, {| disk := ∅; environ := ∅ |})
  = (Err "File does not exist: y",
     ({[ "x" := "text" ]}, {| disk := ∅; environ := ∅ |})).
Proof.
  split.
  - apply (proj1 (@Execute_in_order_until_first_failure
                    _ VirtualFileSystem_FileSystem
                    [fsCreateFile "x" "text"; fsRename "x" "y"]
                    (VirtualFileSystem.NewVirtualFileSystem,
                     {| disk := ∅; environ := ∅ |}))).
    eapply Applied_cons; [reflexivity|].
    eapply Applied_cons; [reflexivity|].
    apply Applied_nil.
  - apply (proj1 (proj2 (@Execute_in_order_until_first_failure
                    _ VirtualFileSystem_FileSystem
                    [fsCreateFile "x" "text"; fsRemove "y";
                     fsCreateFile "z" "more"]
                    (VirtualFileSystem.NewVirtualFileSystem,
                     {| disk := ∅; environ := ∅ |})))
             [fsCreateFile "x" "text"] (fsRemove "y")
             [fsCreateFile "z" "more"]
             ({[ "x" := "text" ]}, {| disk := ∅; environ := ∅ |})).
    + reflexivity.
    + eapply Applied_cons; [reflexivity | apply Applied_nil].
    + reflexivity.
    + reflexivity.
Defined.

(** C6. On the virtual file system, for a table in which [a] and [e] exist
    and [b] does not, [a] and [b] bare names outside the Go root: creating
    [a] fails; renaming or removing [b] fails; renaming [a] to the existing
    [e] fails; each failure leaves the table as it was; renaming [a] to [b]
    succeeds, after which reading [b] gives the former content of [a] and
    reading [a] fails; and create, rename, remove from the empty table leave
    it empty, where removing again fails with does-not-exist. *)
Theorem virtual_backend_invariants
    (files : gmap string string) (h : Host)
    (a b e contentsA contentsE contents newName : string) :
  files !! a = Some contentsA →
  files !! e = Some contentsE →
  files !! b = None →
  isBareFilename a = true →
  isBareFilename b = true →
  VirtualFileSystem.isInGoRoot a h = false →
  VirtualFileSystem.isInGoRoot b h = false →
  VirtualFileSystem.CreateFile a contents (files, h)
    = (Err ("File already exists: " +:+ a), (files, h)) ∧
  VirtualFileSystem.Rename b newName (files, h)
    = (Err ("File does not exist: " +:+ b), (files, h)) ∧
  VirtualFileSystem.Remove b (files, h)
    = (Err ("File does not exist: " +:+ b), (files, h)) ∧
  VirtualFileSystem.Rename a e (files, h)
    = (Err ("File already exists: " +:+ e), (files, h)) ∧
  (∃ files',
     VirtualFileSystem.Rename a b (files, h) = (Ok tt, (files', h)) ∧
     VirtualFileSystem.OpenFile b (files', h) = (Ok contentsA, (files', h)) ∧
     VirtualFileSystem.OpenFile a (files', h)
       = (Err ("Virtual file not found: " +:+ a), (files', h))) ∧
  Execute [fsCreateFile a contents; fsRename a b; fsRemove b]
    (VirtualFileSystem.NewVirtualFileSystem, h)
    = (Ok tt, (∅, h)) ∧
  VirtualFileSystem.Remove b (∅, h)
    = (Err ("File does not exist: " +:+ b), (∅, h)).
Proof.
  intros Ha He Hb Hbare_a Hbare_b Hroot_a Hroot_b.
  assert (a ≠ b) as Hab by (intros ->; congruence).
  unfold VirtualFileSystem.CreateFile, VirtualFileSystem.Rename,
    VirtualFileSystem.Remove.
  rewrite Ha, He, Hb.
  split_and!; try done.
  - exists (delete a (<[b := contentsA]> files)).
    unfold VirtualFileSystem.OpenFile, filepath.Split.
    rewrite Hroot_a, Hroot_b, !path_Split_bare by done.
    rewrite lookup_delete_ne, lookup_insert_eq, lookup_delete_eq by done.
    done.
  - simpl. unfold VirtualFileSystem.CreateFile, VirtualFileSystem.Rename,
      VirtualFileSystem.Remove, VirtualFileSystem.NewVirtualFileSystem.
    rewrite lookup_empty, lookup_insert_eq, lookup_insert_ne, lookup_empty
      by done.
    rewrite lookup_delete_ne, lookup_insert_eq by done.
    do 2 f_equal. apply map_eq. intros k.
    rewrite lookup_empty.
    destruct (decide (k = b)) as [->|]; [by rewrite lookup_delete_eq|].
    rewrite lookup_delete_ne by done.
    destruct (decide (k = a)) as [->|]; [by rewrite lookup_delete_eq|].
    by rewrite lookup_delete_ne, lookup_insert_ne, lookup_insert_ne,
      lookup_empty.
Qed.

Lemma virtual_backend_invariants_witness :
  VirtualFileSystem.Rename "a" "b"
    ({[ "a" := "text"; "e" := "other" ]},
     {| disk := ∅; environ := {[ "GOROOT" := "/usr/lib/go" ]} |})
  = (Ok tt, ({[ "b" := "text"; "e" := "other" ]},
             {| disk := ∅; environ := {[ "GOROOT" := "/usr/lib/go" ]} |})).
Proof.
  destruct (virtual_backend_invariants
              {[ "a" := "text"; "e" := "other" ]}
              {| disk := ∅; environ := {[ "GOROOT" := "/usr/lib/go" ]} |}
              "a" "b" "e" "text" "other" "new" "c")
    as (_ & _ & _ & _ & (files' & Hrename & _) & _); [by vm_compute..|].
  rewrite Hrename. vm_compute in Hrename. by simplify_eq.
Defined.

(** * Walking the syntax tree *)

Section Induction.
Import ast.

(** Induction on expressions that reaches the arguments of a call. *)
Lemma Expr_nested_ind (P : Expr → Prop) :
  (∀ id, P (IdentExpr id)) →
  (∀ lit, P (BasicLitExpr lit)) →
  (∀ X, P X → P (ParenExpr X)) →
  (∀ X Sel, P X → P (SelectorExpr X Sel)) →
  (∀ X Index, P X → P Index → P (IndexExpr X Index)) →
  (∀ Fun Args, P Fun → Forall P Args → P (CallExpr Fun Args)) →
  (∀ X, P X → P (StarExpr X)) →
  (∀ X, P X → P (UnaryExpr X)) →
  (∀ X Y, P X → P Y → P (BinaryExpr X Y)) →
  ∀ e, P e.
Proof.
  intros Hid Hlit Hparen Hsel Hindex Hcall Hstar Hunary Hbinary.
  fix IH 1. intros [id|lit|X|X Sel|X Index|Fun Args|X|X|X Y].
  - apply Hid.
  - apply Hlit.
  - apply Hparen, IH.
  - apply Hsel, IH.
  - apply Hindex; apply IH.
  - apply Hcall; [apply IH|].
    induction Args as [|arg Args IHArgs]; constructor;
      [apply IH | exact IHArgs].
  - apply Hstar, IH.
  - apply Hunary, IH.
  - apply Hbinary; apply IH.
Qed.

(** Induction on statements that reaches the statements of a block. *)
Lemma Stmt_nested_ind (P : Stmt → Prop) :
  (∀ X, P (ExprStmt X)) →
  (∀ Lhs Rhs, P (AssignStmt Lhs Rhs)) →
  (∀ Results, P (ReturnStmt Results)) →
  (∀ List, Forall P List → P (BlockStmt List)) →
  ∀ st, P st.
Proof.
  intros Hexpr Hassign Hreturn Hblock.
  fix IH 1. intros [X|Lhs Rhs|Results|List].
  - apply Hexpr.
  - apply Hassign.
  - apply Hreturn.
  - apply Hblock.
    induction List as [|st List IHList]; constructor; [apply IH | exact IHList].
Qed.
End Induction.

Lemma foldl_pointwise {A B} (f g : A → B → A) (l : list B) (a : A) :
  (∀ a b, f a b = g a b) → foldl f a l = foldl g a l.
Proof.
  intros Hfg. revert a. induction l as [|b l IH]; intros a; simpl; [done|].
  by rewrite Hfg, IH.
Qed.

Section Inert.
Import ast.
Context {S : Type} (f : Node → S → S * bool).

Hypothesis inert_nil : inert f NilNode.

Lemma visit_inert n children s :
  inert f n → (∀ s, children s = s) → visit f n children s = s.
Proof.
  intros Hn Hchildren. unfold visit.
  by rewrite Hn, Hchildren, inert_nil.
Qed.

Lemma walkList_inert {A} (walk : A → S → S) (l : list A) s :
  Forall (λ a, ∀ s, walk a s = s) l → walkList walk l s = s.
Proof.
  unfold walkList. induction 1 as [|a l Ha _ IH]; simpl; [done|].
  by rewrite Ha.
Qed.

Hypothesis inert_expr : ∀ e, inert f (ExprNode e).

Lemma walkIdent_inert id s : walkIdent f id s = s.
Proof. by apply visit_inert. Qed.

Lemma walkBasicLit_inert lit s : walkBasicLit f lit s = s.
Proof. by apply visit_inert. Qed.

Lemma walkExpr_inert e : ∀ s, walkExpr f e s = s.
Proof.
  induction e as [id|lit|X IHX|X Sel IHX|X Index IHX IHIndex
                 |Fun Args IHFun IHArgs|X IHX|X IHX|X Y IHX IHY]
    using Expr_nested_ind; intros s; simpl;
    apply visit_inert; try done; intros s'.
  - by rewrite IHX, walkIdent_inert.
  - by rewrite IHX, IHIndex.
  - by rewrite IHFun, walkList_inert.
  - by rewrite IHX, IHY.
Qed.

Lemma walkExprs_inert (l : list Expr) s : walkList (walkExpr f) l s = s.
Proof.
  apply walkList_inert, Forall_forall. intros e _. apply walkExpr_inert.
Qed.

Hypothesis inert_stmt : ∀ st, inert f (StmtNode st).

Lemma walkStmt_inert st : ∀ s, walkStmt f st s = s.
Proof.
  induction st as [X|Lhs Rhs|Results|List IHList] using Stmt_nested_ind;
    intros s; simpl; apply visit_inert; try done; intros s'.
  - apply walkExpr_inert.
  - by rewrite !walkExprs_inert.
  - apply walkExprs_inert.
  - by apply walkList_inert.
Qed.

Hypothesis inert_spec : ∀ sp, inert f (SpecNode sp).

Lemma walkSpec_inert sp s : walkSpec f sp s = s.
Proof.
  unfold walkSpec. apply visit_inert; [done|]. intros s'.
  destruct sp as [i|Names Values|id T].
  - rewrite walkBasicLit_inert.
    destruct (ImportName i); [apply walkIdent_inert | done].
  - rewrite walkExprs_inert. apply walkList_inert, Forall_forall.
    intros id _. apply walkIdent_inert.
  - by rewrite walkExpr_inert, walkIdent_inert.
Qed.

(** A callback that looks at declarations only, and never prunes the
    walk, sees the top-level declarations of the file in order. *)
Lemma Inspect_declarations (update : Decl → S → S) file s :
  (∀ d s, f (DeclNode d) s = (update d s, true)) →
  inert f (FileNode file) →
  Inspect f file s = foldl (λ s d, update d s) s (Decls file).
Proof.
  intros Hdecl Hfile. unfold Inspect, visit.
  rewrite Hfile, inert_nil, walkIdent_inert. simpl.
  unfold walkList. apply foldl_pointwise.
  intros s' d. unfold walkDecl, visit. rewrite Hdecl, inert_nil.
  cbn [fst]. destruct d as [pos Tok Specs end_|pos id Body end_].
  - apply walkList_inert, Forall_forall. intros sp _ s''.
    apply walkSpec_inert.
  - by rewrite walkStmt_inert, walkIdent_inert.
Qed.
End Inert.

(** * The replacement range *)

Section Range.
Import ast FixImports.

Lemma findImportStatementRange_fold r file :
  findImportStatementRange r file =
  let '(startPos, endPos) :=
    foldl (λ s d, trackImport d s) (0, 0) (Decls file) in
  {| Offset := Fset_Offset r startPos;
     Length := Fset_Offset r endPos - Fset_Offset r startPos + 1 |}.
Proof.
  unfold findImportStatementRange.
  rewrite Inspect_declarations with (update := trackImport); [done|..].
  - by intros [].
  - by intros e [].
  - by intros st [].
  - by intros sp [].
  - by intros [pos [] Specs end_|pos id Body end_] [].
  - by intros [].
Qed.

Lemma trackImport_started (ds : list Decl) (startPos endPos : Pos) :
  startPos ≠ 0 →
  foldl (λ s d, trackImport d s) (startPos, endPos) ds
  = (startPos,
     from_option DeclEnd endPos
       (last (filter (λ d, isImportDecl d = true) ds))).
Proof.
  intros Hstart. revert endPos.
  induction ds as [|d ds IH]; intros endPos; simpl; [done|].
  unfold trackImport at 2. rewrite filter_cons.
  destruct (isImportDecl d) eqn:Hd; simpl.
  - rewrite (proj2 (Z.eqb_neq _ _) Hstart), IH, last_cons.
    by destruct (last _).
  - by rewrite IH.
Qed.

Lemma trackImport_first (ds : list Decl) (first : Decl) (rest : list Decl) :
  filter (λ d, isImportDecl d = true) ds = first :: rest →
  DeclPos first ≠ 0 →
  foldl (λ s d, trackImport d s) (0, 0) ds
  = (DeclPos first, DeclEnd (default first (last rest))).
Proof.
  intros Hfilter Hpos.
  induction ds as [|d ds IH]; simpl; [done|].
  rewrite filter_cons in Hfilter. unfold trackImport at 2.
  destruct (isImportDecl d) eqn:Hd; simpl.
  - rewrite decide_True in Hfilter by done. simplify_eq.
    rewrite trackImport_started by done. by destruct (last _).
  - rewrite decide_False in Hfilter by done. by apply IH.
Qed.

Lemma importDecls_of_Imports file :
  importsFromDecls file → Imports file ≠ [] → importDecls file ≠ [].
Proof.
  unfold importsFromDecls, importDecls. intros -> Himports Hnone.
  apply Himports. clear Himports.
  induction (Decls file) as [|d ds IH]; [done|].
  rewrite filter_cons in Hnone. rewrite bind_cons.
  destruct (isImportDecl d) eqn:Hd.
  - by rewrite decide_True in Hnone.
  - rewrite decide_False in Hnone by done. rewrite IH by done.
    by destruct d as [pos [] Specs end_|pos id Body end_].
Qed.
End Range.

Section Staging.
Import ast FixImports.

Lemma fixImports_outcome r file imports s :
  fixImports r file imports s =
  match findReplacementRange r file with
  | Ok (replaceRange, suffix) =>
      (Ok tt, {| log := log s;
                 editSet := editSet_Add (filename r) replaceRange
                   (constructNewImportStatement imports +:+ suffix)
                   (editSet s) |})
  | Err e => (Err e, s)
  | Panic msg => (Panic msg, s)
  end.
Proof.
  unfold fixImports. by destruct (findReplacementRange r file) as [[]| |].
Qed.

Lemma findReplacementRange_no_imports r file :
  Imports file = [] →
  findReplacementRange r file =
  match Decls file with
  | d :: _ => Ok ({| Offset := Fset_Offset r (DeclPos d); Length := 0 |},
                  newline)
  | [] => Panic "runtime error: index out of range"
  end.
Proof.
  intros Himports. unfold findReplacementRange, findFirstDeclOffset.
  rewrite Himports. simpl. by destruct (Decls file).
Qed.

Lemma findReplacementRange_imports r file first rest :
  Imports file ≠ [] →
  importDecls file = first :: rest →
  DeclPos first ≠ 0 →
  findReplacementRange r file =
  Ok ({| Offset := Fset_Offset r (DeclPos first);
         Length := Fset_Offset r (DeclEnd (default first (last rest)))
                   - Fset_Offset r (DeclPos first) + 1 |}, "").
Proof.
  intros Himports Hdecls Hpos. unfold findReplacementRange.
  destruct (Imports file); [done|]. simpl.
  rewrite findImportStatementRange_fold.
  by rewrite (trackImport_first _ first rest).
Qed.
End Staging.

(** C9, as amended. In a parsed file whose import declarations have valid
    positions: when the file lists at least one import (its [Imports] are
    not empty), the staged range starts at the offset of the first import
    declaration and its length is the end offset of the last import
    declaration minus that start, plus one, so that one range covers all
    the import declarations, and the replacement is the import block; when
    the file lists no import, whether it has no import declaration or only
    empty ones, the staged range is an insertion of length zero at the
    offset of the first top-level declaration, and the replacement is the
    import block followed by a newline. *)
Theorem staged_replacement_range
    (r : FixImports.FixImportsTransformation) (file : ast.File)
    (imports : gmap string string) (s : FixImports.Session) :
  importsFromDecls file →
  Forall (λ d, ast.DeclPos d ≠ 0) (importDecls file) →
  match ast.Imports file with
  | _ :: _ =>
      ∃ first rest,
        importDecls file = first :: rest ∧
        FixImports.fixImports r file imports s =
        (Ok tt,
         {| FixImports.log := FixImports.log s;
            FixImports.editSet :=
              editSet_Add (FixImports.filename r)
                {| Offset := FixImports.Fset_Offset r (ast.DeclPos first);
                   Length :=
                     FixImports.Fset_Offset r
                       (ast.DeclEnd (default first (last rest)))
                     - FixImports.Fset_Offset r (ast.DeclPos first) + 1 |}
                (FixImports.constructNewImportStatement imports)
                (FixImports.editSet s) |})
  | [] =>
      ∀ d ds, ast.Decls file = d :: ds →
        FixImports.fixImports r file imports s =
        (Ok tt,
         {| FixImports.log := FixImports.log s;
            FixImports.editSet :=
              editSet_Add (FixImports.filename r)
                {| Offset := FixImports.Fset_Offset r (ast.DeclPos d);
                   Length := 0 |}
                (FixImports.constructNewImportStatement imports +:+ newline)
                (FixImports.editSet s) |})
  end.
Proof.
  intros Hparsed Hpos.
  destruct (ast.Imports file) as [|i is_] eqn:Himports.
  - intros d ds Hdecls.
    rewrite fixImports_outcome, findReplacementRange_no_imports by done.
    by rewrite Hdecls.
  - assert (ast.Imports file ≠ []) as Hsome by by rewrite Himports.
    pose proof (importDecls_of_Imports file Hparsed Hsome) as Hdecls.
    destruct (importDecls file) as [|first rest] eqn:Hfilter; [done|].
    exists first, rest. split; [done|].
    rewrite fixImports_outcome.
    rewrite (findReplacementRange_imports r file first rest); try done.
    + by rewrite append_empty_r.
    + by inversion Hpos.
Qed.

Lemma staged_replacement_range_witness :
  ∃ first rest,
    importDecls Examples.mainFile = first :: rest ∧
    FixImports.fixImports Examples.mainRefactoring Examples.mainFile
      {[ dquote +:+ "fmt" +:+ dquote := "" ]}
      {| FixImports.log := []; FixImports.editSet := [] |} =
    (Ok tt,
     {| FixImports.log := [];
        FixImports.editSet :=
          editSet_Add "main.go"
            {| Offset := Examples.offsetOf (ast.DeclPos first);
               Length :=
                 Examples.offsetOf (ast.DeclEnd (default first (last rest)))
                 - Examples.offsetOf (ast.DeclPos first) + 1 |}
            (FixImports.constructNewImportStatement
               {[ dquote +:+ "fmt" +:+ dquote := "" ]})
            [] |}).
Proof.
  apply (staged_replacement_range Examples.mainRefactoring Examples.mainFile).
  - reflexivity.
  - repeat constructor; discriminate.
Defined.

(** C9, as first stated, fails: the example file holds an import
    declaration, the empty [import ()], yet the parser lists no import for
    it, and the code stages an insertion of length zero at that declaration
    followed by a newline, where the claim asks for the range of length
    [end - start + 1] over the declaration and no newline. *)
Lemma empty_import_declaration_is_not_replaced :
  importsFromDecls Examples.emptyImportFile ∧
  importDecls Examples.emptyImportFile = [ast.GenDecl 15 ast.IMPORT [] 24] ∧
  FixImports.findReplacementRange Examples.emptyImportRefactoring
    Examples.emptyImportFile
  = Ok ({| Offset := 14; Length := 0 |}, newline) ∧
  FixImports.findReplacementRange Examples.emptyImportRefactoring
    Examples.emptyImportFile
  ≠ Ok ({| Offset := Examples.offsetOf 15;
           Length := Examples.offsetOf 24 - Examples.offsetOf 15 + 1 |}, "") ∧
  FixImports.fixImports Examples.emptyImportRefactoring
    Examples.emptyImportFile ∅
    {| FixImports.log := []; FixImports.editSet := [] |}
  = (Ok tt,
     {| FixImports.log := [];
        FixImports.editSet :=
          [("emptyimport.go", {| Offset := 14; Length := 0 |},
            FixImports.constructNewImportStatement ∅ +:+ newline)] |}).
Proof. by split_and!. Qed.

(** The range staged for the example file covers both import declarations
    and the newline after the second. *)
Example mainFile_range :
  FixImports.findReplacementRange Examples.mainRefactoring Examples.mainFile
  = Ok ({| Offset := 14; Length := 25 |}, "").
Proof. reflexivity. Qed.

(** C10. With no imports the range computation reads the first top-level
    declaration whatever the list holds; so in a parsed file the run returns
    normally exactly when the file has a top-level declaration, and panics
    with an index out of range when it has none. *)
Theorem Run_needs_a_declaration
    (RemoveInitialErrors : Log → Log)
    (r : FixImports.FixImportsTransformation) (f : ast.File)
    (s : FixImports.Session) :
  FixImports.file r = Some f →
  importsFromDecls f →
  (ast.Imports f = [] →
   FixImports.findReplacementRange r f =
   match ast.Decls f with
   | d :: _ =>
       Ok ({| Offset := FixImports.Fset_Offset r (ast.DeclPos d);
              Length := 0 |}, newline)
   | [] => Panic "runtime error: index out of range"
   end) ∧
  ((FixImports.Run RemoveInitialErrors r s).1 = Ok tt
   ↔ ast.Decls f ≠ []) ∧
  (ast.Decls f = [] →
   (FixImports.Run RemoveInitialErrors r s).1
   = Panic "runtime error: index out of range").
Proof.
  intros Hfile Hparsed.
  split; [apply findReplacementRange_no_imports|].
  assert (∀ imports s',
    (FixImports.fixImports r f imports s').1 =
    if decide (ast.Decls f = []) then Panic "runtime error: index out of range"
    else Ok tt) as Hfix.
  { intros imports s'. rewrite fixImports_outcome.
    destruct (ast.Imports f) as [|i is_] eqn:Himports.
    - rewrite findReplacementRange_no_imports by done.
      by destruct (ast.Decls f).
    - unfold FixImports.findReplacementRange. rewrite Himports. simpl.
      rewrite decide_False; [done|]. intros Hdecls.
      unfold importsFromDecls in Hparsed.
      by rewrite Himports, Hdecls in Hparsed. }
  assert ((FixImports.Run RemoveInitialErrors r s).1 =
          if decide (ast.Decls f = [])
          then Panic "runtime error: index out of range" else Ok tt) as ->.
  { unfold FixImports.Run. rewrite Hfile.
    destruct (foldl _ _ _) as [imports lg]. apply Hfix. }
  split.
  - by destruct (decide (ast.Decls f = [])).
  - intros Hdecls. by rewrite decide_True.
Qed.

Lemma Run_needs_a_declaration_witness :
  (FixImports.Run (λ lg, lg) Examples.emptyRefactoring
     {| FixImports.log := []; FixImports.editSet := [] |}).1
  = Panic "runtime error: index out of range".
Proof.
  apply (Run_needs_a_declaration (λ lg, lg) Examples.emptyRefactoring
           Examples.emptyFile); reflexivity.
Defined.

(** * Resolving identifiers *)

Section Resolution.
Import ast FixImports.

Lemma lastSegment_index (pkg : string) :
  default "" (strings.Split pkg "/" !!
                (length (strings.Split pkg "/") - 1)%nat)
  = lastSegment pkg.
Proof. unfold lastSegment. by rewrite last_lookup, Nat.sub_1_r. Qed.

Lemma collected_candidates (name : string) (l found : list string) :
  foldl (λ candidates pkg,
    let components := strings.Split pkg "/"%char in
    let last := default "" (components !! (length components - 1)%nat) in
    if String.eqb last name then candidates ++ [pkg] else candidates)
    found l
  = found ++ filter (λ pkg, lastSegment pkg = name) l.
Proof.
  revert found. induction l as [|pkg l IH]; intros found; cbn [foldl].
  - by rewrite app_nil_r.
  - rewrite IH, filter_cons, lastSegment_index.
    destruct (String.eqb_spec (lastSegment pkg) name) as [Heq|Hne].
    + by rewrite decide_True, <- app_assoc.
    + by rewrite decide_False.
Qed.

Lemma written_candidates (candidates : list string) (message : string) :
  foldl (λ message candidate,
    WriteString message ("    " +:+ candidate +:+ newline))
    message candidates
  = message +:+ foldr (λ candidate rest,
                  "    " +:+ candidate +:+ newline +:+ rest) "" candidates.
Proof.
  revert message.
  induction candidates as [|c candidates IH]; intros message; simpl.
  - by rewrite append_empty_r.
  - rewrite IH. unfold WriteString. by rewrite !append_assoc.
Qed.

(** What [resolveSelector] does, by the number of catalog entries whose
    final segment is the name: with exactly one it returns that path in
    quotes and logs nothing; with any other number, zero included, it
    returns the empty string and logs the ambiguity message. *)
Lemma resolveSelector_cases (ident : Ident) (lg : Log) :
  resolveSelector ident lg =
  match candidatesFor (Name ident) with
  | [pkg] => (dquote +:+ pkg +:+ dquote, lg)
  | candidates =>
      ("", Log_Log ERROR (ambiguityMessage (Name ident) candidates) lg)
  end.
Proof.
  unfold resolveSelector. rewrite collected_candidates. simpl app.
  fold (candidatesFor (Name ident)).
  destruct (candidatesFor (Name ident)) as [|pkg [|pkg' more]] eqn:Hc;
    try done; cbn [length Nat.eqb];
    rewrite written_candidates; unfold WriteString, ambiguityMessage;
    by rewrite !append_assoc.
Qed.
End Resolution.

(** C1 (the code departs from this claim). [isIdentInLHSOfSelectorExpr]
    gives the same answer for every identifier of a file; in the example
    file, [y] is never the left operand of a qualified access, yet the code
    answers that it is, sends [y] to the catalog lookup, and logs the
    diagnostic of that lookup in place of [Unable to resolve y]. *)
Theorem isIdentInLHSOfSelectorExpr_ignores_ident :
  (∀ file i j,
     FixImports.isIdentInLHSOfSelectorExpr file i
     = FixImports.isIdentInLHSOfSelectorExpr file j) ∧
  isLeftOperandOfSelector Examples.mainFile (Examples.ident 68 "y") = false ∧
  FixImports.isIdentInLHSOfSelectorExpr Examples.mainFile
    (Examples.ident 68 "y") = true ∧
  FixImports.resolve Examples.mainFile (Examples.ident 68 "y") []
  = ("", [(ERROR, "There are multiple packages named y:" +:+ newline)]).
Proof. by split_and!. Qed.

(** * Pruning *)

Section Pruning.
Import ast FixImports.

(** The paths that pruning keeps are those of the imports whose alias or
    path literal is a key of the referenced-package set. *)
Lemma findUsedImports_keeps r file (p : string) :
  is_Some (findUsedImports r file !! p) ↔
  ∃ imprt, imprt ∈ Imports file ∧ Value (Path imprt) = p ∧
           kept (collectReferencedPackages r file) imprt.
Proof.
  unfold findUsedImports.
  induction (Imports file) as [|imprt l IH] using rev_ind.
  - simpl. rewrite lookup_empty. split; [by intros [? ?]|].
    by intros (imprt & ?%elem_of_nil & _).
  - rewrite foldl_snoc. fold (aliasOf imprt).
    set (referenced := collectReferencedPackages r file) in *.
    assert (bool_decide (is_Some (referenced !! aliasOf imprt))
            || bool_decide (is_Some (referenced !! Value (Path imprt)))
            ↔ kept referenced imprt) as Hkept.
    { unfold kept. rewrite orb_True, !bool_decide_spec. done. }
    destruct (bool_decide _ || bool_decide _) eqn:Htest.
    + destruct (decide (Value (Path imprt) = p)) as [<-|Hne].
      * rewrite lookup_insert_eq. split; [|by eauto].
        intros _. exists imprt. rewrite elem_of_app, list_elem_of_singleton.
        split_and!; [by right|done|]. by apply Hkept.
      * rewrite lookup_insert_ne by done. rewrite IH.
        split; intros (i & Hi & Hp & Hk); exists i; split_and!; try done.
        -- apply elem_of_app. by left.
        -- apply elem_of_app in Hi as [Hi|Hi%list_elem_of_singleton];
             [done|]. by subst.
    + rewrite IH.
      split; intros (i & Hi & Hp & Hk); exists i; split_and!; try done.
      * apply elem_of_app. by left.
      * apply elem_of_app in Hi as [Hi|Hi%list_elem_of_singleton]; [done|].
        subst. by apply Hkept in Hk.
Qed.
End Pruning.

(** C2 (the code departs from this claim). In the example file, which
    imports [fmt] and [os] and refers to [fmt] only, the referenced-package
    set is exactly [fmt], and pruning keeps no import at all: the path of an
    import is looked up as the literal of the source, quotes included, and
    the set holds package names. *)
Theorem findUsedImports_drops_referenced_import :
  FixImports.collectReferencedPackages Examples.mainRefactoring
    Examples.mainFile = {[ "fmt" := "" ]} ∧
  FixImports.findUsedImports Examples.mainRefactoring Examples.mainFile = ∅.
Proof. split; by vm_compute. Qed.

(** C3 (the code departs from this claim). No catalog entry ends in
    [yaml]; for that name [resolveSelector] stages nothing and logs the
    diagnostic of an ambiguous name, with no candidate under it. *)
Theorem resolveSelector_zero_matches_logs_ambiguity :
  candidatesFor "yaml" = [] ∧
  FixImports.resolveSelector (Examples.ident 56 "yaml") []
  = ("", [(ERROR, "There are multiple packages named yaml:" +:+ newline)]).
Proof. split; by vm_compute. Qed.

(** With one match the path is staged in quotes and nothing is logged. *)
Example resolveSelector_filepath :
  FixImports.resolveSelector (Examples.ident 56 "filepath") []
  = (dquote +:+ "path/filepath" +:+ dquote, []).
Proof. by vm_compute. Qed.

(** With two matches nothing is staged and both paths are logged. *)
Example resolveSelector_rand :
  FixImports.resolveSelector (Examples.ident 56 "rand") []
  = ("", [(ERROR, ambiguityMessage "rand" ["crypto/rand"; "math/rand"])]).
Proof. by vm_compute. Qed.

(** * Renaming to a name that is not bare *)

Lemma LocalFileSystem_Rename_not_bare `{PathLib} `{OsLib}
    (oldPath newName : string) (h : Host) :
  isBareFilename newName = false →
  LocalFileSystem.Rename oldPath newName h
  = (Err ("newName must be a bare filename: " +:+ newName), h).
Proof. intros Hbare. unfold LocalFileSystem.Rename. by rewrite Hbare. Qed.

Lemma EditedFileSystem_Rename_panics {EditSet : Type}
    (path newName : string) (fs : gmap string EditSet * Host) :
  EditedFileSystem.Rename path newName fs = (Panic "Rename unsupported", fs).
Proof. done. Qed.

Lemma VirtualFileSystem_Rename_missing
    (path newName : string) (files : gmap string string) (h : Host) :
  files !! path = None →
  VirtualFileSystem.Rename path newName (files, h)
  = (Err ("File does not exist: " +:+ path), (files, h)).
Proof.
  intros Hmissing. unfold VirtualFileSystem.Rename. by rewrite Hmissing.
Qed.

(** C4 (the code departs from this claim). The virtual file system does
    not check the new name: renaming [a] to [d/b], which is not a bare
    name, succeeds and moves the content in the table. *)
Theorem VirtualFileSystem_Rename_accepts_directory_prefix :
  isBareFilename "d/b" = false ∧
  VirtualFileSystem.Rename "a" "d/b" ({[ "a" := "text" ]}, Examples.noHost)
  = (Ok tt, ({[ "d/b" := "text" ]}, Examples.noHost)).
Proof. split; by vm_compute. Qed.

(** * Walks that look at identifiers only *)

Section IdentWalk.
Import ast Syntax.
Context {S : Type} (f : Node → S → S * bool) (update : Ident → S → S).

Hypothesis at_nil : inert f NilNode.
Hypothesis at_ident :
  ∀ id s, f (ExprNode (IdentExpr id)) s = (update id s, true).
Hypothesis at_expr :
  ∀ e, match e with IdentExpr _ => True | _ => inert f (ExprNode e) end.
Hypothesis at_stmt : ∀ st, inert f (StmtNode st).
Hypothesis at_spec : ∀ sp, inert f (SpecNode sp).
Hypothesis at_decl : ∀ d, inert f (DeclNode d).

Lemma walkList_idents {A} (walk : A → S → S) (items : A → list Ident)
    (l : list A) (s : S) :
  Forall (λ a, ∀ s, walk a s = foldl (λ s id, update id s) s (items a)) l →
  walkList walk l s = foldl (λ s id, update id s) s (concat (items <$> l)).
Proof.
  unfold walkList. intros Hl. revert s.
  induction Hl as [|a l Ha _ IH]; intros s; simpl; [done|].
  by rewrite foldl_app, Ha, IH.
Qed.

Lemma walkIdent_update id s : walkIdent f id s = update id s.
Proof. unfold walkIdent, visit. by rewrite at_ident, at_nil. Qed.

Lemma walkIdents_update (l : list Ident) s :
  walkList (walkIdent f) l s = foldl (λ s id, update id s) s l.
Proof.
  unfold walkList. revert s. induction l as [|id l IH]; intros s; simpl;
    [done|]. by rewrite walkIdent_update, IH.
Qed.

Lemma walkExpr_idents e :
  ∀ s, walkExpr f e s = foldl (λ s id, update id s) s (identsOfExpr e).
Proof.
  induction e as [id|lit|X IHX|X Sel IHX|X Index IHX IHIndex
                 |Fun Args IHFun IHArgs|X IHX|X IHX|X Y IHX IHY]
    using Expr_nested_ind; intros s; simpl.
  - apply walkIdent_update.
  - unfold visit. by rewrite (at_expr (BasicLitExpr lit)), at_nil.
  - unfold visit. by rewrite (at_expr (ParenExpr X)), at_nil, IHX.
  - unfold visit. rewrite (at_expr (SelectorExpr X Sel)), at_nil.
    by rewrite IHX, walkIdent_update, foldl_app.
  - unfold visit. rewrite (at_expr (IndexExpr X Index)), at_nil.
    by rewrite IHX, IHIndex, foldl_app.
  - unfold visit. rewrite (at_expr (CallExpr Fun Args)), at_nil.
    by rewrite IHFun, (walkList_idents _ identsOfExpr), foldl_app.
  - unfold visit. by rewrite (at_expr (StarExpr X)), at_nil, IHX.
  - unfold visit. by rewrite (at_expr (UnaryExpr X)), at_nil, IHX.
  - unfold visit. rewrite (at_expr (BinaryExpr X Y)), at_nil.
    by rewrite IHX, IHY, foldl_app.
Qed.

Lemma walkExprs_idents (l : list Expr) s :
  walkList (walkExpr f) l s
  = foldl (λ s id, update id s) s (concat (identsOfExpr <$> l)).
Proof.
  apply walkList_idents, Forall_forall. intros e _. apply walkExpr_idents.
Qed.

Lemma walkStmt_idents st :
  ∀ s, walkStmt f st s = foldl (λ s id, update id s) s (identsOfStmt st).
Proof.
  induction st as [X|Lhs Rhs|Results|List IHList] using Stmt_nested_ind;
    intros s; simpl; unfold visit; rewrite at_stmt, at_nil; cbn [fst].
  - apply walkExpr_idents.
  - by rewrite !walkExprs_idents, foldl_app.
  - apply walkExprs_idents.
  - by apply walkList_idents.
Qed.

Lemma walkSpec_idents sp s :
  walkSpec f sp s = foldl (λ s id, update id s) s (identsOfSpec sp).
Proof.
  unfold walkSpec, visit. rewrite at_spec, at_nil. cbn [fst].
  destruct sp as [i|Names Values|id T]; simpl.
  - unfold walkBasicLit, visit.
    rewrite (at_expr (BasicLitExpr (Path i))), at_nil. cbn [fst].
    destruct (ImportName i); [apply walkIdent_update | done].
  - by rewrite walkExprs_idents, walkIdents_update, foldl_app.
  - by rewrite walkExpr_idents, walkIdent_update.
Qed.

Lemma walkDecl_idents d s :
  walkDecl f d s = foldl (λ s id, update id s) s (identsOfDecl d).
Proof.
  unfold walkDecl, visit. rewrite at_decl, at_nil. cbn [fst].
  destruct d as [pos Tok Specs end_|pos id Body end_]; cbn [identsOfDecl].
  - apply walkList_idents, Forall_forall. intros sp _ s'.
    apply walkSpec_idents.
  - rewrite (walkStmt_idents (BlockStmt Body)), walkIdent_update. done.
Qed.

(** A callback that acts on identifiers only, and never prunes the walk,
    meets every identifier of the file, in order. *)
Lemma Inspect_idents file s :
  inert f (FileNode file) →
  Inspect f file s = foldl (λ s id, update id s) s (identsOfFile file).
Proof.
  intros Hfile. unfold Inspect, visit. rewrite Hfile, at_nil. cbn [fst].
  rewrite walkIdent_update. unfold identsOfFile. cbn [foldl].
  apply walkList_idents, Forall_forall. intros d _ s'.
  apply walkDecl_idents.
Qed.
End IdentWalk.

(** * The referenced-package set *)

Section Referenced.
Import ast Syntax FixImports.

Lemma collectReferencedPackages_fold r file :
  collectReferencedPackages r file =
  foldl (λ (m : gmap string string) id,
    match pkgInfo_ObjectOf r id with
    | Some (types.PkgName name) => <[name := ""]> m
    | _ => m
    end) ∅ (identsOfFile file).
Proof.
  unfold collectReferencedPackages.
  rewrite Inspect_idents with
    (update := λ id (m : gmap string string),
       match pkgInfo_ObjectOf r id with
       | Some (types.PkgName name) => <[name := ""]> m
       | _ => m
       end); try done.
  - intros id m. by destruct (pkgInfo_ObjectOf r id) as [[]|].
  - by intros [].
Qed.
End Referenced.

(** X1. The referenced-package set has a key [name] exactly when some
    identifier of the file is bound by the type checker to a package name
    [name]; every key maps to the empty string. *)
Theorem collectReferencedPackages_keys
    (r : FixImports.FixImportsTransformation) (file : ast.File)
    (name marker : string) :
  FixImports.collectReferencedPackages r file !! name = Some marker ↔
  marker = "" ∧
  ∃ id, id ∈ Syntax.identsOfFile file ∧
        FixImports.pkgInfo_ObjectOf r id = Some (types.PkgName name).
Proof.
  rewrite collectReferencedPackages_fold.
  induction (Syntax.identsOfFile file) as [|id l IH] using rev_ind.
  - simpl. rewrite lookup_empty. split; [done|].
    by intros (_ & id & ?%elem_of_nil & _).
  - rewrite foldl_snoc.
    assert (∀ P : ast.Ident → Prop,
      (∃ x, x ∈ l ++ [id] ∧ P x) ↔ (∃ x, x ∈ l ∧ P x) ∨ P id) as Hsplit.
    { intros P. split.
      - intros (x & [Hx|Hx%list_elem_of_singleton]%elem_of_app & HP);
          [left; eauto | right; by subst].
      - intros [(x & Hx & HP)|HP];
          [exists x | exists id]; (split; [|done]);
          apply elem_of_app;
          [by left | right; by apply list_elem_of_singleton]. }
    rewrite Hsplit.
    destruct (FixImports.pkgInfo_ObjectOf r id) as [[n|n|n|n|n]|] eqn:Hobj;
      try (rewrite IH; split; [intros [-> ?]; by eauto
                              | by intros [-> [?|?]]]).
    destruct (decide (n = name)) as [->|Hne].
    + rewrite lookup_insert_eq. split; [intros [= <-]; by eauto|].
      by intros [-> _].
    + rewrite lookup_insert_ne by done. rewrite IH.
      split; [intros [-> ?]; by eauto|].
      intros [-> [?|?]]; [done|congruence].
Qed.

(** * The walk that looks for a qualified access *)

Section SelectorWalk.
Import ast Syntax FixImports.

Lemma isIdentInLHSOfSelectorExpr_callback file ident :
  isIdentInLHSOfSelectorExpr file ident = Inspect selectorCallback file false.
Proof. reflexivity. Qed.

Lemma walkList_exists {A} (walk : A → bool → bool) (p : A → bool)
    (l : list A) (b : bool) :
  Forall (λ a, ∀ b, walk a b = b || p a) l →
  walkList walk l b = b || existsb p l.
Proof.
  unfold walkList. intros Hl. revert b.
  induction Hl as [|a l Ha _ IH]; intros b; simpl.
  - by rewrite orb_false_r.
  - by rewrite Ha, IH, orb_assoc.
Qed.

Lemma walkExpr_selector_step X Sel b :
  walkExpr selectorCallback (SelectorExpr X Sel) b =
  match X with
  | IdentExpr _ => true
  | _ => walkExpr selectorCallback X b
  end.
Proof. by destruct X. Qed.

Lemma exprSelectsOnIdent_selector X Sel :
  exprSelectsOnIdent (SelectorExpr X Sel) =
  match X with
  | IdentExpr _ => true
  | _ => exprSelectsOnIdent X
  end.
Proof. by destruct X. Qed.

Lemma walkExpr_selects e :
  ∀ b, walkExpr selectorCallback e b = b || exprSelectsOnIdent e.
Proof.
  induction e as [id|lit|X IHX|X Sel IHX|X Index IHX IHIndex
                 |Fun Args IHFun IHArgs|X IHX|X IHX|X Y IHX IHY]
    using Expr_nested_ind; intros b.
  - by rewrite orb_false_r.
  - by rewrite orb_false_r.
  - apply IHX.
  - rewrite walkExpr_selector_step, exprSelectsOnIdent_selector.
    destruct X; try apply IHX. by rewrite orb_true_r.
  - change (walkExpr selectorCallback Index (walkExpr selectorCallback X b)
            = b || (exprSelectsOnIdent X || exprSelectsOnIdent Index)).
    by rewrite IHX, IHIndex, orb_assoc.
  - change (walkList (walkExpr selectorCallback) Args
              (walkExpr selectorCallback Fun b)
            = b || (exprSelectsOnIdent Fun
                    || existsb exprSelectsOnIdent Args)).
    by rewrite IHFun, (walkList_exists _ exprSelectsOnIdent), orb_assoc.
  - apply IHX.
  - apply IHX.
  - change (walkExpr selectorCallback Y (walkExpr selectorCallback X b)
            = b || (exprSelectsOnIdent X || exprSelectsOnIdent Y)).
    by rewrite IHX, IHY, orb_assoc.
Qed.

Lemma walkExprs_selects (l : list Expr) b :
  walkList (walkExpr selectorCallback) l b
  = b || existsb exprSelectsOnIdent l.
Proof.
  apply walkList_exists, Forall_forall. intros e _. apply walkExpr_selects.
Qed.

Lemma walkStmt_selects st :
  ∀ b, walkStmt selectorCallback st b = b || stmtSelectsOnIdent st.
Proof.
  induction st as [X|Lhs Rhs|Results|List IHList] using Stmt_nested_ind;
    intros b.
  - apply walkExpr_selects.
  - change (walkList (walkExpr selectorCallback) Rhs
              (walkList (walkExpr selectorCallback) Lhs b)
            = b || (existsb exprSelectsOnIdent Lhs
                    || existsb exprSelectsOnIdent Rhs)).
    by rewrite !walkExprs_selects, orb_assoc.
  - apply walkExprs_selects.
  - change (walkList (walkStmt selectorCallback) List b
            = b || existsb stmtSelectsOnIdent List).
    by apply walkList_exists.
Qed.

Lemma walkIdents_selects (l : list Ident) b :
  walkList (walkIdent selectorCallback) l b = b.
Proof.
  unfold walkList. by induction l as [|id l IH]; simpl.
Qed.

Lemma walkSpec_selects sp b :
  walkSpec selectorCallback sp b = b || specSelectsOnIdent sp.
Proof.
  destruct sp as [i|Names Values|id T].
  - rewrite orb_false_r. unfold walkSpec. by destruct (ImportName i).
  - change (walkList (walkExpr selectorCallback) Values
              (walkList (walkIdent selectorCallback) Names b)
            = b || existsb exprSelectsOnIdent Values).
    by rewrite walkIdents_selects, walkExprs_selects.
  - apply (walkExpr_selects T).
Qed.

Lemma walkDecl_selects d b :
  walkDecl selectorCallback d b = b || declSelectsOnIdent d.
Proof.
  destruct d as [pos Tok Specs end_|pos id Body end_].
  - change (walkList (walkSpec selectorCallback) Specs b
            = b || existsb specSelectsOnIdent Specs).
    apply walkList_exists, Forall_forall. intros sp _ b'.
    apply walkSpec_selects.
  - apply (walkStmt_selects (BlockStmt Body)).
Qed.

Lemma Inspect_selects file b :
  Inspect selectorCallback file b = b || fileSelectsOnIdent file.
Proof.
  change (walkList (walkDecl selectorCallback) (Decls file) b
          = b || existsb declSelectsOnIdent (Decls file)).
  apply walkList_exists, Forall_forall. intros d _ b'.
  apply walkDecl_selects.
Qed.
End SelectorWalk.

(** X2. [isIdentInLHSOfSelectorExpr] answers whether the file holds, at
    any depth, a qualified access whose left operand is an identifier; so
    [resolve] looks every identifier up in the catalog when the file holds
    one, and logs [Unable to resolve] for every identifier when it holds
    none. *)
Theorem resolve_by_file
    (file : ast.File) (ident : ast.Ident) (lg : Log) :
  FixImports.isIdentInLHSOfSelectorExpr file ident
  = Syntax.fileSelectsOnIdent file ∧
  FixImports.resolve file ident lg =
  if Syntax.fileSelectsOnIdent file
  then FixImports.resolveSelector ident lg
  else ("", lg ++ [(ERROR, "Unable to resolve " +:+ ast.Name ident)]).
Proof.
  assert (FixImports.isIdentInLHSOfSelectorExpr file ident
          = Syntax.fileSelectsOnIdent file) as Heq.
  { rewrite isIdentInLHSOfSelectorExpr_callback. apply Inspect_selects. }
  split; [done|]. unfold FixImports.resolve. by rewrite Heq.
Qed.

(** * What resolving stages and logs *)

Section Staged.
Import ast FixImports.

Lemma quoted_not_empty (pkg : string) : dquote +:+ pkg +:+ dquote ≠ "".
Proof. done. Qed.

Lemma candidatesFor_singleton (name pkg : string) :
  candidatesFor name = [pkg] →
  pkg ∈ goLibraryPackages ∧ lastSegment pkg = name ∧
  ∀ pkg', pkg' ∈ goLibraryPackages → lastSegment pkg' = name → pkg' = pkg.
Proof.
  unfold candidatesFor. intros Hfilter.
  assert (∀ x, x ∈ filter (λ pkg, lastSegment pkg = name) goLibraryPackages
               ↔ x = pkg) as Hin.
  { intros x. rewrite Hfilter. apply list_elem_of_singleton. }
  assert (pkg ∈ filter (λ pkg, lastSegment pkg = name) goLibraryPackages)
    as [Hlast Hmember]%list_elem_of_filter by by apply Hin.
  split_and!; [done..|].
  intros pkg' Hpkg' Hlast'. apply Hin. by apply list_elem_of_filter.
Qed.

(** A call of [resolve] either returns a path in quotes and leaves the
    log, or returns the empty string and appends one [ERROR]. *)
Lemma resolve_outcome file ident lg :
  (resolvedImport file ident ≠ "" ∧
   resolve file ident lg = (resolvedImport file ident, lg)) ∨
  (resolvedImport file ident = "" ∧
   ∃ message, resolve file ident lg = ("", lg ++ [(ERROR, message)])).
Proof.
  unfold resolvedImport, resolve.
  destruct (isIdentInLHSOfSelectorExpr file ident).
  - rewrite !resolveSelector_cases.
    destruct (candidatesFor (Name ident)) as [|pkg [|pkg' more]];
      [right|left|right]; (split; [done|]); by eauto.
  - right. split; [done|]. by eauto.
Qed.

(** The loop of [Run] over the unresolved identifiers. *)
Lemma resolve_loop file (idents : list Ident)
    (imports0 : gmap string string) (lg0 : Log) :
  ∃ imports diagnostics,
    foldl (λ '(imports, lg) ident,
      let '(resolved, lg) := resolve file ident lg in
      if negb (String.eqb resolved "")
      then (<[resolved := ""]> imports, lg)
      else (imports, lg)) (imports0, lg0) idents
    = (imports, lg0 ++ diagnostics) ∧
    Forall (λ entry, entry.1 = ERROR) diagnostics ∧
    length diagnostics
    = length (filter (λ id, resolvedImport file id = "") idents) ∧
    (∀ id, id ∈ idents → resolvedImport file id ≠ "" →
           imports !! resolvedImport file id = Some "") ∧
    (∀ p, (∀ id, id ∈ idents → resolvedImport file id = p → p = "") →
          imports !! p = imports0 !! p).
Proof.
  induction idents as [|ident idents IH] using rev_ind.
  - exists imports0, []. simpl. rewrite app_nil_r.
    split_and!; try done. by intros id ?%elem_of_nil.
  - destruct IH
      as (imports & diagnostics & Hloop & Herror & Hlen & Hnew & Hold).
    rewrite foldl_snoc, Hloop, filter_app, length_app.
    destruct (resolve_outcome file ident (lg0 ++ diagnostics))
      as [[Hres Hcall]|[Hres [message Hcall]]]; rewrite Hcall.
    + rewrite (proj2 (String.eqb_neq _ _) Hres). cbn [negb].
      exists (<[resolvedImport file ident := ""]> imports), diagnostics.
      split_and!; try done.
      * rewrite filter_cons, decide_False by done. simpl. lia.
      * intros id [Hid|Hid%list_elem_of_singleton]%elem_of_app Hid';
          [|subst; by rewrite lookup_insert_eq].
        destruct (decide (resolvedImport file ident = resolvedImport file id))
          as [->|Hne]; [by rewrite lookup_insert_eq|].
        rewrite lookup_insert_ne by done. by apply Hnew.
      * intros p Hp. rewrite lookup_insert_ne.
        -- apply Hold. intros id Hid. apply Hp, elem_of_app. by left.
        -- intros Heq. apply Hres. rewrite Heq. apply (Hp ident); [|done].
           apply elem_of_app. right. by apply list_elem_of_singleton.
    + rewrite String.eqb_refl. cbn [negb].
      exists imports, (diagnostics ++ [(ERROR, message)]).
      split_and!.
      * by rewrite app_assoc.
      * apply Forall_app. split; [done|]. by repeat constructor.
      * rewrite filter_cons, decide_True by done.
        rewrite length_app. simpl. lia.
      * intros id [Hid|Hid%list_elem_of_singleton]%elem_of_app Hid';
          [by apply Hnew | by subst].
      * intros p Hp. apply Hold. intros id Hid. apply Hp, elem_of_app.
        by left.
Qed.
End Staged.

(** X3. [resolveSelector] stages an import only when exactly one entry of
    the catalog ends in the name of the identifier: it then returns that
    entry in quotes and logs nothing. For every other number of matching
    entries it returns the empty string and appends one [ERROR] that heads
    the list of the matching entries. *)
Theorem resolveSelector_outcome (ident : ast.Ident) (lg : Log) :
  (∃ pkg,
     pkg ∈ FixImports.goLibraryPackages ∧
     lastSegment pkg = ast.Name ident ∧
     (∀ pkg', pkg' ∈ FixImports.goLibraryPackages →
              lastSegment pkg' = ast.Name ident → pkg' = pkg) ∧
     FixImports.resolveSelector ident lg = (dquote +:+ pkg +:+ dquote, lg)) ∨
  (length (candidatesFor (ast.Name ident)) ≠ 1%nat ∧
   FixImports.resolveSelector ident lg
   = ("", lg ++ [(ERROR, ambiguityMessage (ast.Name ident)
                           (candidatesFor (ast.Name ident)))])).
Proof.
  rewrite resolveSelector_cases.
  destruct (candidatesFor (ast.Name ident)) as [|pkg [|pkg' more]] eqn:Hc.
  - by right.
  - left. exists pkg.
    destruct (candidatesFor_singleton _ _ Hc) as (? & ? & ?). done.
  - by right.
Qed.

(** X4. After [RemoveInitialErrors], a run appends to the log one [ERROR]
    for each unresolved identifier for which it stages no import, and
    nothing else, whether it then stages the edit or panics. *)
Theorem Run_logs_one_error_per_failure
    (RemoveInitialErrors : Log → Log)
    (r : FixImports.FixImportsTransformation) (f : ast.File)
    (s : FixImports.Session) :
  FixImports.file r = Some f →
  ∃ diagnostics,
    FixImports.log (FixImports.Run RemoveInitialErrors r s).2
    = RemoveInitialErrors (FixImports.log s) ++ diagnostics ∧
    Forall (λ entry, entry.1 = ERROR) diagnostics ∧
    length diagnostics
    = length (filter (λ id, resolvedImport f id = "") (ast.Unresolved f)).
Proof.
  intros Hfile. unfold FixImports.Run. rewrite Hfile.
  destruct (resolve_loop f (ast.Unresolved f) (FixImports.findUsedImports r f)
              (RemoveInitialErrors (FixImports.log s)))
    as (imports & diagnostics & -> & Herror & Hlen & _).
  exists diagnostics. split; [|done].
  rewrite fixImports_outcome.
  by destruct (FixImports.findReplacementRange r f) as [[]| |].
Qed.

Lemma Run_logs_one_error_per_failure_witness :
  ∃ diagnostics,
    FixImports.log
      (FixImports.Run (λ lg, lg) Examples.mainRefactoring
         {| FixImports.log := []; FixImports.editSet := [] |}).2
    = [] ++ diagnostics ∧
    Forall (λ entry, entry.1 = ERROR) diagnostics ∧
    length diagnostics
    = length (filter (λ id, resolvedImport Examples.mainFile id = "")
                (ast.Unresolved Examples.mainFile)).
Proof.
  apply (Run_logs_one_error_per_failure (λ lg, lg) Examples.mainRefactoring
           Examples.mainFile). reflexivity.
Defined.

(** X5. The import set a run serializes holds, with an empty alias, every
    import that [resolve] returns for an unresolved identifier, and agrees
    with the pruned imports on every other path. *)
Theorem Run_import_set
    (RemoveInitialErrors : Log → Log)
    (r : FixImports.FixImportsTransformation) (f : ast.File)
    (s : FixImports.Session) :
  FixImports.file r = Some f →
  ∃ imports lg,
    FixImports.Run RemoveInitialErrors r s
    = FixImports.fixImports r f imports
        {| FixImports.log := lg;
           FixImports.editSet := FixImports.editSet s |} ∧
    (∀ id, id ∈ ast.Unresolved f → resolvedImport f id ≠ "" →
           imports !! resolvedImport f id = Some "") ∧
    (∀ p, (∀ id, id ∈ ast.Unresolved f → resolvedImport f id = p → p = "") →
          imports !! p = FixImports.findUsedImports r f !! p).
Proof.
  intros Hfile. unfold FixImports.Run. rewrite Hfile.
  destruct (resolve_loop f (ast.Unresolved f) (FixImports.findUsedImports r f)
              (RemoveInitialErrors (FixImports.log s)))
    as (imports & diagnostics & -> & _ & _ & Hnew & Hold).
  by exists imports, (RemoveInitialErrors (FixImports.log s) ++ diagnostics).
Qed.

Lemma Run_import_set_witness :
  ∃ imports lg,
    FixImports.Run (λ lg, lg) Examples.mainRefactoring
      {| FixImports.log := []; FixImports.editSet := [] |}
    = FixImports.fixImports Examples.mainRefactoring Examples.mainFile imports
        {| FixImports.log := lg; FixImports.editSet := [] |} ∧
    (∀ id, id ∈ ast.Unresolved Examples.mainFile →
           resolvedImport Examples.mainFile id ≠ "" →
           imports !! resolvedImport Examples.mainFile id = Some "") ∧
    (∀ p, (∀ id, id ∈ ast.Unresolved Examples.mainFile →
                 resolvedImport Examples.mainFile id = p → p = "") →
          imports !! p
          = FixImports.findUsedImports Examples.mainRefactoring
              Examples.mainFile !! p).
Proof.
  apply (Run_import_set (λ lg, lg) Examples.mainRefactoring Examples.mainFile).
  reflexivity.
Defined.

(** * Pruning, in general *)

(** X6. Pruning keeps exactly the paths of the imports whose alias or path
    literal is a key of the referenced-package set, and the alias it keeps
    for a path is that of such an import of the file: it never invents an
    entry. *)
Theorem findUsedImports_entries
    (r : FixImports.FixImportsTransformation) (file : ast.File)
    (p name : string) :
  (is_Some (FixImports.findUsedImports r file !! p) ↔
   ∃ imprt, imprt ∈ ast.Imports file ∧ ast.Value (ast.Path imprt) = p ∧
            kept (FixImports.collectReferencedPackages r file) imprt) ∧
  (FixImports.findUsedImports r file !! p = Some name →
   ∃ imprt, imprt ∈ ast.Imports file ∧ ast.Value (ast.Path imprt) = p ∧
            aliasOf imprt = name ∧
            kept (FixImports.collectReferencedPackages r file) imprt).
Proof.
  split; [apply findUsedImports_keeps|].
  unfold FixImports.findUsedImports.
  induction (ast.Imports file) as [|imprt l IH] using rev_ind.
  - simpl. by rewrite lookup_empty.
  - rewrite foldl_snoc. fold (aliasOf imprt).
    set (referenced := FixImports.collectReferencedPackages r file) in *.
    assert (∀ i, i ∈ l → i ∈ l ++ [imprt]) as Hleft.
    { intros i Hi. apply elem_of_app. by left. }
    destruct (bool_decide _ || bool_decide _) eqn:Htest.
    + destruct (decide (ast.Value (ast.Path imprt) = p)) as [<-|Hne].
      * rewrite lookup_insert_eq. intros [= <-]. exists imprt.
        split_and!; try done.
        -- apply elem_of_app. right. by apply list_elem_of_singleton.
        -- unfold kept. apply orb_true_iff in Htest.
           by rewrite !bool_decide_eq_true in Htest.
      * rewrite lookup_insert_ne by done. intros Hp.
        destruct (IH Hp) as (i & Hi & ? & ? & ?). exists i. by auto.
    + intros Hp. destruct (IH Hp) as (i & Hi & ? & ? & ?). exists i. by auto.
Qed.

Lemma findUsedImports_entries_witness :
  ∃ imprt,
    imprt ∈ ast.Imports Examples.aliasedFile ∧
    ast.Value (ast.Path imprt) = dquote +:+ "fmt" +:+ dquote ∧
    aliasOf imprt = "f" ∧
    kept (FixImports.collectReferencedPackages Examples.aliasedRefactoring
            Examples.aliasedFile) imprt.
Proof.
  apply (proj2 (findUsedImports_entries Examples.aliasedRefactoring
                  Examples.aliasedFile (dquote +:+ "fmt" +:+ dquote) "f")).
  by vm_compute.
Defined.

Section Unaliased.
Import ast FixImports.

Lemma HasPrefix_dquote (s : string) :
  strings.HasPrefix s dquote = true → ∃ s', s = dquote +:+ s'.
Proof.
  destruct s as [|c s]; [done|]. simpl.
  destruct (Ascii.eqb_spec c "034"); [|done]. subst. by exists s.
Qed.
End Unaliased.

(** X7. When the names the type checker gives to packages are not empty
    and do not start with a quote, and every import of the file is a
    quoted path without alias, pruning keeps none of them, referenced or
    not. *)
Theorem findUsedImports_unaliased_all_dropped
    (r : FixImports.FixImportsTransformation) (file : ast.File) :
  (∀ id name,
     FixImports.pkgInfo_ObjectOf r id = Some (types.PkgName name) →
     name ≠ "" ∧ strings.HasPrefix name dquote = false) →
  (∀ imprt, imprt ∈ ast.Imports file →
     ast.ImportName imprt = None ∧
     strings.HasPrefix (ast.Value (ast.Path imprt)) dquote = true) →
  FixImports.findUsedImports r file = ∅.
Proof.
  intros Hnames Himports. apply map_eq. intros p. rewrite lookup_empty.
  apply eq_None_not_Some. intros Hsome.
  apply findUsedImports_keeps in Hsome as (imprt & Hin & _ & Hkept).
  destruct (Himports imprt Hin) as [Hnone Hquoted].
  assert (∀ key, is_Some (FixImports.collectReferencedPackages r file !! key)
                 → key ≠ "" ∧ strings.HasPrefix key dquote = false) as Hkeys.
  { intros key [marker Hkey].
    apply collectReferencedPackages_keys in Hkey as (_ & id & _ & Hid).
    by apply (Hnames id). }
  destruct Hkept as [Halias|Hpath].
  - unfold aliasOf in Halias. rewrite Hnone in Halias.
    by destruct (Hkeys _ Halias).
  - destruct (Hkeys _ Hpath) as [_ Hnot]. congruence.
Qed.

Lemma findUsedImports_unaliased_all_dropped_witness :
  FixImports.findUsedImports Examples.mainRefactoring Examples.mainFile = ∅.
Proof.
  apply findUsedImports_unaliased_all_dropped.
  - intros id name. simpl. destruct (Z.eqb _ _); [|done].
    by intros [= <-].
  - intros imprt Himprt. simpl in Himprt.
    apply elem_of_cons in Himprt as [->|Himprt]; [done|].
    by apply list_elem_of_singleton in Himprt as ->.
Defined.

(** * Bare names *)

Lemma path_Split_dir_empty (p : string) :
  String.eqb (path.Split p).1 "" = negb (containsSlash p).
Proof.
  induction p as [|c p IH]; [done|]. simpl.
  destruct (path.Split p) as [dir f]. simpl in IH.
  destruct (Ascii.eqb c "/"); [done|].
  destruct dir; simpl in *; [by rewrite <- IH | by rewrite <- IH].
Qed.



(** X8. A name is bare exactly when it holds no slash. *)
Theorem isBareFilename_no_slash (filePath : string) :
  isBareFilename filePath = negb (containsSlash filePath).
Proof.
  unfold isBareFilename. rewrite <- path_Split_dir_empty.
  by destruct (path.Split filePath).
Qed.

(** * The virtual file system, operation by operation *)

(** X9. On the virtual file system, creating a file under a free bare name
    outside the Go root succeeds; reading the name then gives the content
    written, and every other entry of the table is as before. *)
Theorem virtual_create_then_open
    (files : gmap string string) (h : Host) (name contents : string) :
  files !! name = None →
  isBareFilename name = true →
  VirtualFileSystem.isInGoRoot name h = false →
  ∃ files',
    VirtualFileSystem.CreateFile name contents (files, h)
      = (Ok tt, (files', h)) ∧
    VirtualFileSystem.OpenFile name (files', h)
      = (Ok contents, (files', h)) ∧
    ∀ other, other ≠ name → files' !! other = files !! other.
Proof.
  intros Hfree Hbare Hroot. exists (<[name := contents]> files).
  unfold VirtualFileSystem.CreateFile, VirtualFileSystem.OpenFile,
    filepath.Split.
  rewrite Hfree, Hroot, path_Split_bare, lookup_insert_eq by done.
  split_and!; try done. intros other Hother. by rewrite lookup_insert_ne.
Qed.

Lemma virtual_create_then_open_witness :
  ∃ files',
    VirtualFileSystem.CreateFile "main.go" "package main"
      (∅, Examples.goHost)
      = (Ok tt, (files', Examples.goHost)) ∧
    VirtualFileSystem.OpenFile "main.go" (files', Examples.goHost)
      = (Ok "package main", (files', Examples.goHost)) ∧
    ∀ other, other ≠ "main.go" →
      files' !! other = (∅ : gmap string string) !! other.
Proof.
  apply (virtual_create_then_open ∅ Examples.goHost
           "main.go" "package main"); by vm_compute.
Defined.



(** X11. When [GOROOT] is unset or empty every path counts as inside the
    Go root: [OpenFile] on the virtual file system then reads the disk and
    never its own table. *)
Theorem virtual_open_without_GOROOT
    (files : gmap string string) (h : Host) (p : string) :
  os.Getenv "GOROOT" h = "" →
  VirtualFileSystem.OpenFile p (files, h)
  = (match disk h !! p with
     | Some contents => Ok contents
     | None => Err ("open " +:+ p +:+ ": no such file or directory")
     end, (files, h)).
Proof.
  intros Hroot. unfold VirtualFileSystem.OpenFile, VirtualFileSystem.isInGoRoot.
  rewrite Hroot. unfold os.Open.
  by destruct p; simpl; destruct (disk h !! _).
Qed.

Lemma virtual_open_without_GOROOT_witness :
  VirtualFileSystem.OpenFile "main.go"
    ({[ "main.go" := "package main" ]}, Examples.noHost)
  = (match disk Examples.noHost !! "main.go" with
     | Some contents => Ok contents
     | None => Err ("open " +:+ "main.go" +:+ ": no such file or directory")
     end, ({[ "main.go" := "package main" ]}, Examples.noHost)).
Proof.
  apply (virtual_open_without_GOROOT {[ "main.go" := "package main" ]}
           Examples.noHost "main.go").
  reflexivity.
Defined.

(** X12. No batch of changes replayed on the virtual file system changes
    the host: the disk and the environment are as before, whether the batch
    succeeds or fails. *)
Theorem virtual_Execute_leaves_host
    (changes : list FileSystemChange) (files : gmap string string)
    (h : Host) :
  (@Execute _ VirtualFileSystem_FileSystem changes (files, h)).2.2 = h.
Proof.
  revert files. induction changes as [|chg changes IH]; intros files; [done|].
  simpl. destruct chg as [p contents|p|p newName]; simpl;
    unfold VirtualFileSystem.CreateFile, VirtualFileSystem.Remove,
      VirtualFileSystem.Rename.
  - destruct (files !! p); [done|]. apply IH.
  - destruct (files !! p); [|done]. apply IH.
  - destruct (files !! p); [|done].
    destruct (files !! newName); [done|]. apply IH.
Qed.

(** X13. On the virtual file system, renaming [a] to a free name [b] and
    back restores the table, and a rename changes no entry other than
    those of the two names. *)
Theorem virtual_rename_there_and_back
    (files : gmap string string) (h : Host) (a b contents : string) :
  files !! a = Some contents →
  files !! b = None →
  @Execute _ VirtualFileSystem_FileSystem [fsRename a b; fsRename b a]
    (files, h) = (Ok tt, (files, h)) ∧
  ∃ files',
    VirtualFileSystem.Rename a b (files, h) = (Ok tt, (files', h)) ∧
    files' !! a = None ∧ files' !! b = Some contents ∧
    ∀ other, other ≠ a → other ≠ b → files' !! other = files !! other.
Proof.
  intros Ha Hb. assert (a ≠ b) as Hab by (intros ->; congruence).
  split.
  - simpl. unfold VirtualFileSystem.Rename. rewrite Ha, Hb.
    rewrite lookup_delete_ne, lookup_insert_eq, lookup_delete_eq by done.
    do 2 f_equal. apply map_eq. intros k.
    destruct (decide (k = b)) as [->|Hkb]; [by rewrite lookup_delete_eq|].
    rewrite lookup_delete_ne by done.
    destruct (decide (k = a)) as [->|Hka]; [by rewrite lookup_insert_eq|].
    by rewrite lookup_insert_ne, lookup_delete_ne, lookup_insert_ne.
  - exists (delete a (<[b := contents]> files)).
    unfold VirtualFileSystem.Rename. rewrite Ha, Hb.
    split_and!; try done.
    + apply lookup_delete_eq.
    + by rewrite lookup_delete_ne, lookup_insert_eq.
    + intros other Ha' Hb'. by rewrite lookup_delete_ne, lookup_insert_ne.
Qed.

Lemma virtual_rename_there_and_back_witness :
  @Execute _ VirtualFileSystem_FileSystem [fsRename "a" "b"; fsRename "b" "a"]
    ({[ "a" := "text" ]}, Examples.noHost)
  = (Ok tt, ({[ "a" := "text" ]}, Examples.noHost)).
Proof.
  apply (virtual_rename_there_and_back {[ "a" := "text" ]} Examples.noHost
           "a" "b" "text"); by vm_compute.
Defined.

(** X14. On the virtual file system, creating a file under a free name
    and removing it restores the table. *)
Theorem virtual_create_then_remove
    (files : gmap string string) (h : Host) (p contents : string) :
  files !! p = None →
  @Execute _ VirtualFileSystem_FileSystem [fsCreateFile p contents; fsRemove p]
    (files, h) = (Ok tt, (files, h)).
Proof.
  intros Hfree. simpl.
  unfold VirtualFileSystem.CreateFile, VirtualFileSystem.Remove.
  rewrite Hfree, lookup_insert_eq. do 2 f_equal.
  by rewrite delete_insert_eq, delete_id.
Qed.

Lemma virtual_create_then_remove_witness :
  @Execute _ VirtualFileSystem_FileSystem
    [fsCreateFile "x" "text"; fsRemove "x"]
    ({[ "a" := "other" ]}, Examples.noHost)
  = (Ok tt, ({[ "a" := "other" ]}, Examples.noHost)).
Proof.
  apply (virtual_create_then_remove {[ "a" := "other" ]} Examples.noHost
           "x" "text"). by vm_compute.
Defined.

(** * Batches *)

(** X15. Replaying two batches one after the other is replaying their
    concatenation: the second batch runs from the state the first left,
    and does not run at all when the first fails. *)
Theorem Execute_app {Fs : Type} `{!FileSystem Fs}
    (first second : list FileSystemChange) (fs : Fs) :
  Execute (first ++ second) fs =
  match Execute first fs with
  | (Ok _, fs') => Execute second fs'
  | failure => failure
  end.
Proof.
  revert fs. induction first as [|chg first IH]; intros fs; simpl; [done|].
  destruct (ExecuteUsing chg fs) as [[[]|err|msg] fs']; [apply IH|done..].
Qed.

(** X16. A batch returns [nil] exactly when each of its changes succeeds
    from the state the one before left; the state returned is the one the
    last change left. *)
Theorem Execute_succeeds_iff_all_applied {Fs : Type} `{!FileSystem Fs}
    (changes : list FileSystemChange) (fs fs' : Fs) :
  Execute changes fs = (Ok tt, fs') ↔ Applied changes fs fs'.
Proof. apply Execute_all_applied. Qed.

(** X17. Whenever a batch fails, one of its changes failed after all the
    changes before it had succeeded in order; the failure and the state
    returned are those of that change. *)
Theorem Execute_failure_is_first_failure {Fs : Type} `{!FileSystem Fs}
    (changes : list FileSystemChange) (fs fs' : Fs) (o : Outcome unit) :
  Execute changes fs = (o, fs') →
  failed o = true →
  ∃ before chg after fs1,
    changes = before ++ chg :: after ∧
    Applied before fs fs1 ∧
    ExecuteUsing chg fs1 = (o, fs').
Proof. apply Execute_failure_inv. Qed.

Lemma Execute_failure_is_first_failure_witness :
  ∃ before chg after fs1,
    [fsCreateFile "x" "text"; fsCreateFile "x" "again"; fsRemove "x"]
    = before ++ chg :: after ∧
    @Applied _ VirtualFileSystem_FileSystem before (∅, Examples.noHost) fs1 ∧
    ExecuteUsing chg fs1
    = (Err "File already exists: x",
       ({[ "x" := "text" ]}, Examples.noHost)).
Proof.
  apply (@Execute_failure_is_first_failure _ VirtualFileSystem_FileSystem
           [fsCreateFile "x" "text"; fsCreateFile "x" "again"; fsRemove "x"]
           (∅, Examples.noHost)); by vm_compute.
Defined.

(** X18. The overlay file system supports no change: a batch that is not
    empty panics at its first change, whatever the change, and leaves the
    edit sets and the host as they were. *)
Theorem overlay_Execute_panics
    {EditSet : Type} (ApplyToReader : EditSet → string → Outcome string)
    (chg : FileSystemChange) (changes : list FileSystemChange)
    (fs : gmap string EditSet * Host) :
  @Execute _ (EditedFileSystem_FileSystem ApplyToReader) (chg :: changes) fs
  = (Panic match chg with
           | fsCreateFile _ _ => "CreateFile unsupported"
           | fsRemove _ => "Remove unsupported"
           | fsRename _ _ => "Rename unsupported"
           end, fs).
Proof. by destruct chg. Qed.

(** * The local file system *)





(** * What the staged range covers *)

Section Cover.
Import ast FixImports.

Lemma ends_before_last (first : Decl) (rest : list Decl) (d : Decl) :
  StronglySorted follows (first :: rest) →
  Forall validSpan (first :: rest) →
  d ∈ first :: rest →
  DeclEnd d ≤ DeclEnd (default first (last rest)).
Proof.
  intros Hsorted Hvalid Hd.
  induction rest as [|z rest' _] using rev_ind.
  - apply list_elem_of_singleton in Hd as ->. simpl. lia.
  - rewrite last_snoc. simpl.
    change (first :: rest' ++ [z]) with ((first :: rest') ++ [z]) in *.
    apply elem_of_app in Hd as [Hd|Hd%list_elem_of_singleton];
      [|subst; lia].
    assert (follows d z) as Hdz.
    { apply (StronglySorted_app_1_elem_of _ _ _ _ _ Hsorted Hd).
      by apply list_elem_of_singleton. }
    apply Forall_app in Hvalid as [_ Hz].
    apply Forall_singleton in Hz as [_ Hz]. unfold follows in Hdz. lia.
Qed.

Lemma starts_after_first (first : Decl) (rest : list Decl) (d : Decl) :
  StronglySorted follows (first :: rest) →
  Forall validSpan (first :: rest) →
  d ∈ first :: rest →
  DeclPos first ≤ DeclPos d.
Proof.
  intros [Hrest _]%StronglySorted_cons Hvalid Hd.
  apply elem_of_cons in Hd as [->|Hd]; [lia|].
  apply Forall_cons in Hvalid as [[_ Hfirst] _].
  rewrite Forall_forall in Hrest. specialize (Hrest d Hd).
  unfold follows in Hrest. lia.
Qed.
End Cover.

(** X21. When the import declarations of the file follow one another with
    valid positions and offsets grow with positions, the range staged for
    a file with imports covers every import declaration, from its first
    byte to the byte after its last. *)
Theorem replacement_range_covers_imports
    (r : FixImports.FixImportsTransformation) (file : ast.File) :
  (∀ p q, p ≤ q → FixImports.Fset_Offset r p ≤ FixImports.Fset_Offset r q) →
  ast.Imports file ≠ [] →
  importDecls file ≠ [] →
  Forall validSpan (importDecls file) →
  StronglySorted follows (importDecls file) →
  ∃ range,
    FixImports.findReplacementRange r file = Ok (range, "") ∧
    ∀ d, d ∈ importDecls file →
      Offset range ≤ FixImports.Fset_Offset r (ast.DeclPos d) ∧
      FixImports.Fset_Offset r (ast.DeclEnd d) < Offset range + Length range.
Proof.
  intros Hmono Himports Hsome Hvalid Hsorted.
  destruct (importDecls file) as [|first rest] eqn:Hdecls; [done|].
  eexists. split.
  - apply (findReplacementRange_imports r file first rest); try done.
    apply Forall_cons in Hvalid as [[Hpos _] _]. done.
  - intros d Hd. simpl.
    pose proof (starts_after_first first rest d Hsorted Hvalid Hd) as Hlow.
    pose proof (ends_before_last first rest d Hsorted Hvalid Hd) as Hhigh.
    apply Hmono in Hlow, Hhigh. lia.
Qed.

Lemma replacement_range_covers_imports_witness :
  ∃ range,
    FixImports.findReplacementRange Examples.mainRefactoring Examples.mainFile
    = Ok (range, "") ∧
    ∀ d, d ∈ importDecls Examples.mainFile →
      Offset range ≤ Examples.offsetOf (ast.DeclPos d) ∧
      Examples.offsetOf (ast.DeclEnd d) < Offset range + Length range.
Proof.
  apply (replacement_range_covers_imports Examples.mainRefactoring
           Examples.mainFile).
  - intros p q Hpq. simpl. unfold Examples.offsetOf.
    destruct (Z.eqb_spec p 0), (Z.eqb_spec q 0); lia.
  - done.
  - done.
  - repeat constructor; simpl; lia.
  - repeat constructor; unfold follows; simpl; lia.
Defined.

(** X22. A run on a bound file stages at most one edit, for the file of the
    transformation: it either returns normally with exactly one edit added
    to the edit set, or panics on the missing first declaration with the
    edit set as it was. *)
Theorem Run_stages_one_edit
    (RemoveInitialErrors : Log → Log)
    (r : FixImports.FixImportsTransformation) (f : ast.File)
    (s : FixImports.Session) :
  FixImports.file r = Some f →
  (∃ range text,
     (FixImports.Run RemoveInitialErrors r s).1 = Ok tt ∧
     FixImports.editSet (FixImports.Run RemoveInitialErrors r s).2
     = FixImports.editSet s ++ [(FixImports.filename r, range, text)]) ∨
  ((FixImports.Run RemoveInitialErrors r s).1
   = Panic "runtime error: index out of range" ∧
   FixImports.editSet (FixImports.Run RemoveInitialErrors r s).2
   = FixImports.editSet s).
Proof.
  intros Hfile. unfold FixImports.Run. rewrite Hfile.
  destruct (foldl _ _ _) as [imports lg]. rewrite fixImports_outcome.
  unfold FixImports.findReplacementRange, FixImports.findFirstDeclOffset.
  destruct (Nat.eqb _ 0).
  - destruct (ast.Decls f); [by right|]. left. by eauto.
  - left. by eauto.
Qed.

Lemma Run_stages_one_edit_witness :
  (∃ range text,
     (FixImports.Run (λ lg, lg) Examples.mainRefactoring
        {| FixImports.log := []; FixImports.editSet := [] |}).1 = Ok tt ∧
     FixImports.editSet
       (FixImports.Run (λ lg, lg) Examples.mainRefactoring
          {| FixImports.log := []; FixImports.editSet := [] |}).2
     = [] ++ [("main.go", range, text)]) ∨
  ((FixImports.Run (λ lg, lg) Examples.mainRefactoring
      {| FixImports.log := []; FixImports.editSet := [] |}).1
   = Panic "runtime error: index out of range" ∧
   FixImports.editSet
     (FixImports.Run (λ lg, lg) Examples.mainRefactoring
        {| FixImports.log := []; FixImports.editSet := [] |}).2
   = []).
Proof.
  apply (Run_stages_one_edit (λ lg, lg) Examples.mainRefactoring
           Examples.mainFile).
  reflexivity.
Defined.
